(** * node-vlc-http: the command dispatcher, the state cache and the tick
      scheduler of [src/lib/index.ts], as a shallow embedding.

    JavaScript strings are modelled by [string] (a string stands for its
    UTF-8 bytes), JavaScript numbers by exact rationals [Q], a parsed JSON
    body by the inductive type [json].  Synchronous code runs in the
    monad [M] (object state, effect log, exceptions); an asynchronous
    method is split at its [await] into the part that issues the request
    and the part that runs when the response arrives. *)

From Stdlib Require Import List String Ascii Bool Arith NArith ZArith QArith.
From Stdlib Require Import Qround Lia Lqa DecimalString Permutation.
Import ListNotations.

Local Open Scope list_scope.
Local Open Scope string_scope.

(* ================================================================= *)
(** ** Node primitives used by the dispatcher *)

Module Node.

(** [Buffer.from(s).toString('base64')], on the bytes of [s]. *)
Definition b64table : string :=
  "ABCDEFGHIJKLMNOPQRSTUVWXYZabcdefghijklmnopqrstuvwxyz0123456789+/".

Definition b64char (n : N) : string :=
  match String.get (N.to_nat n) b64table with
  | Some c => String c ""
  | None => ""
  end.

Fixpoint base64 (s : string) : string :=
  match s with
  | "" => ""
  | String a "" =>
      let x := N_of_ascii a in
      b64char (x / 4) ++ b64char ((x mod 4) * 16) ++ "=="
  | String a (String b "") =>
      let x := N_of_ascii a in
      let y := N_of_ascii b in
      b64char (x / 4) ++ b64char ((x mod 4) * 16 + y / 16)
        ++ b64char ((y mod 16) * 4) ++ "="
  | String a (String b (String c rest)) =>
      let x := N_of_ascii a in
      let y := N_of_ascii b in
      let z := N_of_ascii c in
      b64char (x / 4) ++ b64char ((x mod 4) * 16 + y / 16)
        ++ b64char ((y mod 16) * 4 + z / 64) ++ b64char (z mod 64)
        ++ base64 rest
  end%N.

(** The values that the call sites of [_sendCommand] put in a parameter
    object: a string, a number (the call sites pass integers: ids, modes,
    delays), or [undefined] (an optional argument that was left out).
    [VNum n] stands for the JavaScript number [n] as long as [n] is a
    safe integer ([safe_integer] below); other numbers are outside the
    model. *)
Inductive qvalue : Type :=
| VStr (s : string)
| VNum (n : Z)
| VUndefined.

(** A parameter object: its own enumerable keys in insertion order,
    which is the order of enumeration as long as no key is integer-like
    ([plain_params] below). *)
Definition params : Type := list (string * qvalue).

(** Property assignment: an existing key keeps its place and takes the
    new value, a new key goes last. *)
Fixpoint obj_set (k : string) (v : qvalue) (o : params) : params :=
  match o with
  | [] => [(k, v)]
  | (k', v') :: o' =>
      if String.eqb k k' then (k', v) :: o' else (k', v') :: obj_set k v o'
  end.

(** Object spread [{ ...base, ...o }]: every own key of [o] is copied,
    whatever its value. *)
Definition spread (base o : params) : params :=
  fold_left (fun acc kv => obj_set (fst kv) (snd kv) acc) o base.

(** [querystring.stringify]: [stringifyPrimitive] renders a string as
    itself and a finite number as JavaScript prints it, in decimal for
    the safe integers of the model; every other value, [undefined]
    included, is rendered as the empty string. *)
Definition stringifyPrimitive (v : qvalue) : string :=
  match v with
  | VStr s => s
  | VNum n => NilZero.string_of_int (Z.to_int n)
  | VUndefined => ""
  end.

Definition hexchar (n : N) : string :=
  match String.get (N.to_nat n) "0123456789ABCDEF" with
  | Some c => String c ""
  | None => ""
  end.

(** The characters [querystring.escape] leaves alone:
    [A-Z a-z 0-9 - _ . ! ~ * ' ( )]. *)
Definition noEscape (c : ascii) : bool :=
  let n := N_of_ascii c in
  ((48 <=? n) && (n <=? 57) || (65 <=? n) && (n <=? 90)
   || (97 <=? n) && (n <=? 122)
   || (n =? 33) || (n =? 39) || (n =? 40) || (n =? 41) || (n =? 42)
   || (n =? 45) || (n =? 46) || (n =? 95) || (n =? 126))%N.

Fixpoint qsEscape (s : string) : string :=
  match s with
  | "" => ""
  | String c rest =>
      (if noEscape c then String c ""
       else let n := N_of_ascii c in
            "%" ++ hexchar (n / 16) ++ hexchar (n mod 16)) ++ qsEscape rest
  end%N.

Definition stringifyField (kv : string * qvalue) : string :=
  qsEscape (fst kv) ++ "=" ++ qsEscape (stringifyPrimitive (snd kv)).

Definition stringify (o : params) : string :=
  String.concat "&" (map stringifyField o).

(** The numbers [VNum] stands for faithfully: the integers of magnitude
    below 2^53, which a JavaScript number holds exactly and prints in
    decimal (from 1e21 on the digits come in exponent form). *)
Definition safe_integer (n : Z) : Prop :=
  (- 9007199254740992 < n < 9007199254740992)%Z.

Definition safe_value (v : qvalue) : Prop :=
  match v with
  | VNum n => safe_integer n
  | VStr _ | VUndefined => True
  end.

(** A key that starts with a digit may be integer-like, and a
    JavaScript object enumerates its integer-like keys first, in
    ascending order, before the others in insertion order. *)
Definition starts_with_digit (k : string) : bool :=
  match k with
  | "" => false
  | String c _ => let n := N_of_ascii c in ((48 <=? n) && (n <=? 57))%N
  end.

(** The parameter objects for which the list order of [params] is the
    order of enumeration and the rendering of numbers is exact: no key
    starts with a digit, every number is a safe integer.  The objects
    the call sites build are of this kind. *)
Definition plain_params (o : params) : Prop :=
  Forall (fun kv => starts_with_digit (fst kv) = false
                    /\ safe_value (snd kv)) o.

End Node.
Import Node.

(* ================================================================= *)
(** ** Parsed JSON bodies and structural equality *)

#[local] Set Warnings "-register-all".

Inductive json : Type :=
| JNull
| JBool (b : bool)
| JNum (q : Q)
| JStr (s : string)
| JArr (items : list json)
| JObj (fields : list (string * json)).

(** JavaScript truthiness, as the operator [||] tests it. *)
Definition truthy (v : json) : bool :=
  match v with
  | JNull => false
  | JBool b => b
  | JNum q => negb (Qeq_bool q 0)
  | JStr s => negb (String.eqb s "")
  | JArr _ | JObj _ => true
  end.

(** Property access [o[k]]. *)
Fixpoint field (k : string) (fs : list (string * json)) : option json :=
  match fs with
  | [] => None
  | (k', v) :: fs' => if String.eqb k k' then Some v else field k fs'
  end.

(** Modelled from the spec: [equal] is the default export of the npm
    package deep-equal, a dependency whose code is not part of [src/].
    The spec describes it as a recursive value equality over numbers,
    booleans, strings, ordered sequences and keyed mappings: two arrays
    are equal when they have the same length and equal items position by
    position, two objects when they have the same number of keys and
    every key of the first is a key of the second with an equal value.
    [null] is equal to [null] only. *)
Fixpoint equal (a b : json) {struct a} : bool :=
  match a, b with
  | JNull, JNull => true
  | JBool x, JBool y => Bool.eqb x y
  | JNum x, JNum y => Qeq_bool x y
  | JStr x, JStr y => String.eqb x y
  | JArr xs, JArr ys =>
      (fix items (xs ys : list json) {struct xs} : bool :=
         match xs, ys with
         | [], [] => true
         | x :: xs', y :: ys' => equal x y && items xs' ys'
         | _, _ => false
         end) xs ys
  | JObj xs, JObj ys =>
      (List.length xs =? List.length ys)%nat &&
      (fix keys (xs : list (string * json)) {struct xs} : bool :=
         match xs with
         | [] => true
         | (k, v) :: xs' =>
             match field k ys with
             | Some w => equal v w
             | None => false
             end && keys xs'
         end) xs
  | _, _ => false
  end.

(** Every object, at any depth, has pairwise distinct keys (what
    [JSON.parse] produces). *)
Fixpoint distinct_keys (v : json) : Prop :=
  match v with
  | JArr xs =>
      (fix all (xs : list json) : Prop :=
         match xs with
         | [] => True
         | x :: xs' => distinct_keys x /\ all xs'
         end) xs
  | JObj fs =>
      NoDup (map fst fs) /\
      (fix all (fs : list (string * json)) : Prop :=
         match fs with
         | [] => True
         | (_, x) :: fs' => distinct_keys x /\ all fs'
         end) fs
  | _ => True
  end.

(** The same value up to the insertion order of the keys of its objects,
    at any depth. *)
Inductive reordered : json -> json -> Prop :=
| reordered_null : reordered JNull JNull
| reordered_bool b : reordered (JBool b) (JBool b)
| reordered_num q : reordered (JNum q) (JNum q)
| reordered_str s : reordered (JStr s) (JStr s)
| reordered_arr xs ys :
    Forall2 reordered xs ys -> reordered (JArr xs) (JArr ys)
| reordered_obj xs zs ys :
    Permutation xs zs ->
    Forall2 (fun p q => fst p = fst q /\ reordered (snd p) (snd q)) zs ys ->
    reordered (JObj xs) (JObj ys).

(* ================================================================= *)
(** ** Events, effects and the client object *)

(** A thrown value: the [Error] objects of the transport (a failed
    connection, a body that is not JSON) and those thrown by listeners. *)
Inductive exn : Type :=
| Err (message : string).

(** What the request promise of [get] settles with. *)
Inductive response : Type :=
| Rejected (e : exn)
| Resolved (body : json).

(** The events the class emits, with their arguments. *)
Inductive event : Type :=
| Tick (delta : Q)
| Update (status playlist : json)
| StatusChange (prev next : json)
| PlaylistChange (prev next : json)
| ErrorEvent (err : exn).

Definition event_name (ev : event) : string :=
  match ev with
  | Tick _ => "tick"
  | Update _ _ => "update"
  | StatusChange _ _ => "statuschange"
  | PlaylistChange _ _ => "playlistchange"
  | ErrorEvent _ => "error"
  end.

(** A listener is known by what it does to the emitter: it returns
    ([None]) or throws ([Some e]). *)
Definition listener : Type := event -> option exn.

Inductive CommandScope : Type := BROWSE | STATUS | PLAYLIST.

Definition scope_path (scope : CommandScope) : string :=
  match scope with
  | BROWSE => "/requests/browse.json"
  | STATUS => "/requests/status.json"
  | PLAYLIST => "/requests/playlist.json"
  end.

(** The argument of [http.get]. *)
Record RequestOptions : Type := {
  req_host : string;
  req_port : Q;
  req_path : string;
  req_Authorization : string
}.

(** What a piece of code does to the outside, in order. *)
Inductive effect : Type :=
| Get (options : RequestOptions)
| Emit (ev : event)
| SetTimeout (ms : Q)
| SetImmediate.

Record VLCOptions : Type := {
  host : option string;
  port : option Q;
  username : string;
  password : string;
  autoUpdate : option bool;
  tickLengthMs : option Q;
  changeEvents : option bool
}.

(** The fields of a [VLC] object; [_events] is the listener table it
    inherits from [EventEmitter], in registration order. *)
Record VLC : Type := {
  _host : string;
  _port : Q;
  _autoUpdate : bool;
  _changeEvents : bool;
  _authorization : string;
  _tickLengthMs : Q;
  _tickLengthNano : Q;
  _longWaitMs : Q;
  _longWaitNano : Q;
  _prev : Q;
  _target : Q;
  _status : json;
  _playlist : json;
  _events : list (string * listener)
}.

Definition with_status (v : json) (s : VLC) : VLC :=
  {| _host := _host s; _port := _port s; _autoUpdate := _autoUpdate s;
     _changeEvents := _changeEvents s; _authorization := _authorization s;
     _tickLengthMs := _tickLengthMs s; _tickLengthNano := _tickLengthNano s;
     _longWaitMs := _longWaitMs s; _longWaitNano := _longWaitNano s;
     _prev := _prev s; _target := _target s;
     _status := v; _playlist := _playlist s; _events := _events s |}.

Definition with_playlist (v : json) (s : VLC) : VLC :=
  {| _host := _host s; _port := _port s; _autoUpdate := _autoUpdate s;
     _changeEvents := _changeEvents s; _authorization := _authorization s;
     _tickLengthMs := _tickLengthMs s; _tickLengthNano := _tickLengthNano s;
     _longWaitMs := _longWaitMs s; _longWaitNano := _longWaitNano s;
     _prev := _prev s; _target := _target s;
     _status := _status s; _playlist := v; _events := _events s |}.

Definition with_clock (prev target : Q) (s : VLC) : VLC :=
  {| _host := _host s; _port := _port s; _autoUpdate := _autoUpdate s;
     _changeEvents := _changeEvents s; _authorization := _authorization s;
     _tickLengthMs := _tickLengthMs s; _tickLengthNano := _tickLengthNano s;
     _longWaitMs := _longWaitMs s; _longWaitNano := _longWaitNano s;
     _prev := prev; _target := target;
     _status := _status s; _playlist := _playlist s; _events := _events s |}.

(** [vlc.on(name, f)]. *)
Definition on (name : string) (f : listener) (s : VLC) : VLC :=
  {| _host := _host s; _port := _port s; _autoUpdate := _autoUpdate s;
     _changeEvents := _changeEvents s; _authorization := _authorization s;
     _tickLengthMs := _tickLengthMs s; _tickLengthNano := _tickLengthNano s;
     _longWaitMs := _longWaitMs s; _longWaitNano := _longWaitNano s;
     _prev := _prev s; _target := _target s;
     _status := _status s; _playlist := _playlist s;
     _events := (_events s ++ [(name, f)])%list |}.

(* ================================================================= *)
(** ** Synchronous code: state, effect log and exceptions *)

Inductive completion (A : Type) : Type :=
| Normal (a : A)
| Throw (e : exn).
Arguments Normal {A} a.
Arguments Throw {A} e.

Definition is_throw {A : Type} (c : completion A) : bool :=
  match c with Normal _ => false | Throw _ => true end.

(** A run leaves the object in a state, has logged effects, and has
    completed normally or thrown; what was done before a throw stays. *)
Definition M (A : Type) : Type := VLC -> VLC * list effect * completion A.

Definition final {A : Type} (r : VLC * list effect * completion A) : VLC :=
  fst (fst r).
Definition log {A : Type} (r : VLC * list effect * completion A)
  : list effect := snd (fst r).
Definition outcome {A : Type} (r : VLC * list effect * completion A)
  : completion A := snd r.

Definition ret {A : Type} (a : A) : M A := fun s => (s, [], Normal a).

Definition throw {A : Type} (e : exn) : M A := fun s => (s, [], Throw e).

Definition bind {A B : Type} (m : M A) (f : A -> M B) : M B :=
  fun s =>
    match m s with
    | (s1, l1, Normal a) =>
        match f a s1 with
        | (s2, l2, c) => (s2, (l1 ++ l2)%list, c)
        end
    | (s1, l1, Throw e) => (s1, l1, Throw e)
    end.

Notation "x <- m ;; k" := (bind m (fun x => k))
  (at level 61, m at next level, right associativity).
Notation "m ;; k" := (bind m (fun _ => k))
  (at level 61, right associativity).

(** [try { body } catch (err) { handler(err) }]. *)
Definition try_catch {A : Type} (body : M A) (handler : exn -> M A) : M A :=
  fun s =>
    match body s with
    | (s1, l1, Normal a) => (s1, l1, Normal a)
    | (s1, l1, Throw e) =>
        match handler e s1 with
        | (s2, l2, c) => (s2, (l1 ++ l2)%list, c)
        end
    end.

(** Runs [m] and hands over how it completed: the promise of an async
    function body, settled. *)
Definition settle {A : Type} (m : M A) : M (completion A) :=
  fun s => match m s with (s1, l1, c) => (s1, l1, Normal c) end.

(** The completion of a settled promise seen by the code that awaits
    it: the value, or the rejection thrown at the [await]. *)
Definition unsettle {A : Type} (c : completion A) : M A :=
  match c with Normal a => ret a | Throw e => throw e end.

Definition get_this : M VLC := fun s => (s, [], Normal s).
Definition modify (f : VLC -> VLC) : M unit := fun s => (f s, [], Normal tt).
Definition perform (e : effect) : M unit := fun s => (s, [e], Normal tt).

(** [await p] where the request promise [p] has settled with [r]. *)
Definition await (r : response) : M json :=
  match r with
  | Resolved body => ret body
  | Rejected e => throw e
  end.

(** *** EventEmitter *)

(** Listeners run in registration order; the first one that throws
    ends the emission and its exception leaves [emit]. *)
Fixpoint call_listeners (hs : list listener) (ev : event)
  : completion unit :=
  match hs with
  | [] => Normal tt
  | h :: hs' =>
      match h ev with
      | Some e => Throw e
      | None => call_listeners hs' ev
      end
  end.

Definition listeners (name : string) (table : list (string * listener))
  : list listener :=
  map snd (filter (fun l => String.eqb (fst l) name) table).

(** What [emit] does with a listener table, after Node's [events]
    module: the listeners of the name are called synchronously; an
    ['error'] event that has no listener throws its argument. *)
Definition deliver (table : list (string * listener)) (ev : event)
  : completion unit :=
  match listeners (event_name ev) table, ev with
  | [], ErrorEvent err => Throw err
  | hs, _ => call_listeners hs ev
  end.

(** [this.emit(name, ...args)]. *)
Definition emit (ev : event) : M unit :=
  fun s => (s, [Emit ev], deliver (_events s) ev).

(** [setTimeout(this._doTick.bind(this), ms)] and
    [setImmediate(this._doTick.bind(this))]. *)
Definition setTimeout (ms : Q) : M unit := perform (SetTimeout ms).
Definition setImmediate : M unit := perform SetImmediate.

(* ================================================================= *)
(** ** The class [VLC] *)

Definition s2nano : Q := 1000000000.
Definition ms2nano : Q := 1000000.
Definition nano2s : Q := 1 / s2nano.

Definition Math_max (a b : Q) : Q := if Qle_bool a b then b else a.
Definition Math_floor (a : Q) : Q := inject_Z (Qfloor a).

(** [command ? ... : ...] on an optional string: [undefined], [null] and
    the empty string are falsy. *)
Definition truthy_string (o : option string) : bool :=
  match o with
  | Some s => negb (String.eqb s "")
  | None => false
  end.

(** [_sendCommand(scope, command, options)] up to the call of [get]:
    the request it sends.  The promise it returns settles with the
    [response] of that request. *)
Definition _sendCommand (scope : CommandScope) (command : option string)
    (options : option params) : M unit :=
  this <- get_this ;;
  let query : option string := None in
  let query : option string :=
    if truthy_string command then
      Some (stringify
              (spread [("command", VStr (match command with
                                         | Some c => c
                                         | None => ""
                                         end))]
                      (match options with Some o => o | None => [] end)))
    else if negb (truthy_string command) && truthy_string query then
      Some (match options with Some o => stringify o | None => "" end)
    else query in
  perform (Get {| req_host := _host this;
                  req_port := _port this;
                  req_path :=
                    scope_path scope ++
                    (if truthy_string query
                     then "?" ++ match query with Some q => q | None => "" end
                     else "");
                  req_Authorization := _authorization this |}).

(** [browse(path)]. *)
Definition browse (path : string) : M unit :=
  _sendCommand BROWSE None (Some [("dir", VStr path)]).

(** [addToQueueAndPlay(uri, option)]; [option] is [VUndefined] when the
    caller leaves it out. *)
Definition addToQueueAndPlay (uri : string) (option : qvalue) : M unit :=
  let options := [("input", VStr uri); ("option", option)] in
  _sendCommand STATUS (Some "in_play") (Some options).

Definition addToQueue (uri : string) : M unit :=
  _sendCommand STATUS (Some "in_enqueue") (Some [("input", VStr uri)]).

Definition stop : M unit :=
  _sendCommand STATUS (Some "pl_forcepause") None.

Definition forcePause : M unit :=
  _sendCommand STATUS (Some "pl_forcepause") None.

Definition sortPlaylist (order mode : Z) : M unit :=
  _sendCommand STATUS (Some "pl_sort")
    (Some [("id", VNum mode); ("val", VNum order)]).

(** A call of an action, [browse] included: the request is sent, and the
    promise the caller holds is the one of [_sendCommand], which settles
    as the request does. *)
Definition call (action : M unit) (r : response) : M json :=
  action ;; await r.

(** [updateStatus()]: the request, then the code after the [await]. *)
Definition updateStatus_issue : M unit := _sendCommand STATUS None None.

Definition updateStatus_resume (r : response) : M json :=
  status <- await r ;;
  this <- get_this ;;
  (if _changeEvents this && negb (equal status (_status this)) then
     try_catch
       (emit (StatusChange
                (if truthy (_status this) then _status this else status)
                status))
       (fun err => emit (ErrorEvent err)) ;;
     modify (with_status status)
   else ret tt) ;;
  ret status.

Definition updateStatus (r : response) : M json :=
  updateStatus_issue ;; updateStatus_resume r.

(** [updatePlaylist()]. *)
Definition updatePlaylist_issue : M unit := _sendCommand PLAYLIST None None.

Definition updatePlaylist_resume (r : response) : M json :=
  playlist <- await r ;;
  this <- get_this ;;
  (if _changeEvents this && negb (equal playlist (_playlist this)) then
     try_catch
       (emit (PlaylistChange
                (if truthy (_playlist this) then _playlist this else playlist)
                playlist))
       (fun err => emit (ErrorEvent err)) ;;
     modify (with_playlist playlist)
   else ret tt) ;;
  ret playlist.

Definition updatePlaylist (r : response) : M json :=
  updatePlaylist_issue ;; updatePlaylist_resume r.

(** *** [Promise.all] of the two refreshes *)

(** Which of the two responses of one [updateAll] arrives first. *)
Inductive arrival : Type := StatusFirst | PlaylistFirst.

(** [Promise.all([pa, pb])] followed by the [reaction] registered on
    it.  Both bodies run, each when its response arrives.  The
    combined promise rejects as soon as one body has thrown, and the
    reaction runs at that moment, before the other body; a later
    rejection of the other body is dropped. *)
Definition Promise_all {A B C : Type} (first : arrival)
    (pa : M A) (pb : M B) (reaction : completion (A * B) -> M C) : M C :=
  match first with
  | StatusFirst =>
      ca <- settle pa ;;
      match ca with
      | Throw e =>
          c <- settle (reaction (Throw e)) ;; settle pb ;; unsettle c
      | Normal a =>
          cb <- settle pb ;;
          match cb with
          | Throw e => reaction (Throw e)
          | Normal b => reaction (Normal (a, b))
          end
      end
  | PlaylistFirst =>
      cb <- settle pb ;;
      match cb with
      | Throw e =>
          c <- settle (reaction (Throw e)) ;; settle pa ;; unsettle c
      | Normal b =>
          ca <- settle pa ;;
          match ca with
          | Throw e => reaction (Throw e)
          | Normal a => reaction (Normal (a, b))
          end
      end
  end.

(** [updateAll()]: both requests are sent at the call. *)
Definition updateAll_issue : M unit :=
  updateStatus_issue ;; updatePlaylist_issue.

(** The code of [updateAll] after [await Promise.all(...)]. *)
Definition updateAll_body (c : completion (json * json))
  : M (json * json) :=
  pair <- unsettle c ;;
  let status := fst pair in
  let playlist := snd pair in
  try_catch (emit (Update status playlist))
            (fun err => emit (ErrorEvent err)) ;;
  ret (status, playlist).

(** [updateAll()] from the arrival of the responses on, with the
    [reaction] its caller registered on the promise it returned. *)
Definition updateAll_resume {C : Type} (first : arrival)
    (rs rp : response) (reaction : completion (json * json) -> M C) : M C :=
  Promise_all first (updateStatus_resume rs) (updatePlaylist_resume rp)
    (fun c => c' <- settle (updateAll_body c) ;; reaction c').

(** A direct call: the caller awaits the promise. *)
Definition updateAll (first : arrival) (rs rp : response)
  : M (json * json) :=
  updateAll_issue ;; updateAll_resume first rs rp unsettle.

(** *** The tick loop *)

(** [_doTick()]; [now] and [now'] are the two readings of [getNano()].
    The sums are exact here; they are the stored doubles whenever the
    operands are whole numbers of nanoseconds whose sum is below 2^53.
    On a fire, [this.updateAll()] sends its two requests at once; what
    it and the [catch] hung on it do when the responses arrive is
    [tick_refresh] below. *)
Definition _doTick (now now' : Q) : M unit :=
  this <- get_this ;;
  (if Qle_bool (_target this) now then
     let delta := (now - _prev this) * nano2s in
     modify (with_clock now (now + _tickLengthNano this)) ;;
     emit (Tick delta) ;;
     updateAll_issue
   else ret tt) ;;
  this <- get_this ;;
  let remainingInTick := _target this - now' in
  if negb (Qle_bool remainingInTick (_longWaitNano this)) then
    setTimeout (Math_max (_longWaitMs this) (_tickLengthMs this))
  else setImmediate.

(** [this.updateAll().catch(err => this.emit('error', err))] from the
    arrival of the responses on.  Nothing holds the promise that
    [catch] returns: the completion of this run is not seen by any
    caller. *)
Definition tick_refresh (first : arrival) (rs rp : response) : M unit :=
  updateAll_resume first rs rp
    (fun c => match c with
              | Normal _ => ret tt
              | Throw err => emit (ErrorEvent err)
              end).

(** *** Construction *)

(** [a || b] on an optional string and on an optional number. *)
Definition or_string (a : option string) (b : string) : string :=
  match a with
  | Some s => if String.eqb s "" then b else s
  | None => b
  end.

Definition or_number (a : option Q) (b : Q) : Q :=
  match a with
  | Some q => if Qeq_bool q 0 then b else q
  | None => b
  end.

(** [new VLC(options)], up to the end of the constructor: the fields
    and the probe request; [now] is the reading of [getNano()]. *)
Definition constructor (options : VLCOptions) (now : Q)
  : VLC * list effect * completion unit :=
  let tickLength := or_number (tickLengthMs options) (1000 / 30) in
  let tickLength :=
    if negb (Qle_bool 16 tickLength) then 16 else tickLength in
  let longWait := Math_floor (tickLength - 1) in
  _sendCommand STATUS None None
    {| _host := or_string (host options) "127.0.0.1";
       _port := or_number (port options) 8080;
       _autoUpdate := match autoUpdate options with
                      | Some b => b
                      | None => true
                      end;
       _changeEvents := match changeEvents options with
                        | Some b => b
                        | None => true
                        end;
       _authorization :=
         "Basic " ++ base64 (username options ++ ":" ++ password options);
       _tickLengthMs := tickLength;
       _tickLengthNano := tickLength * ms2nano;
       _longWaitMs := longWait;
       _longWaitNano := longWait * ms2nano;
       _prev := now;
       _target := now;
       _status := JNull;
       _playlist := JNull;
       _events := [] |}.

(** The chain the constructor hangs on the probe,
    [.catch(this.emit.bind(this, 'error')).then(() => {...})], run when
    the probe has settled with [r]. *)
Definition probe_settled (r : response) (now now' : Q) : M unit :=
  match r with
  | Rejected e => emit (ErrorEvent e)
  | Resolved _ => ret tt
  end ;;
  this <- get_this ;;
  if _autoUpdate this then _doTick now now' else ret tt.

(** *** Reading a log *)

Definition emitted (l : list effect) : list event :=
  flat_map (fun e => match e with Emit ev => [ev] | _ => [] end) l.

Definition requests (l : list effect) : list RequestOptions :=
  flat_map (fun e => match e with Get r => [r] | _ => [] end) l.

(** The events of a given name in a log, in order. *)
Definition events_named (name : string) (l : list effect) : list event :=
  filter (fun ev => String.eqb (event_name ev) name) (emitted l).

(** A timer was set: the loop will run [_doTick] again. *)
Definition armed (l : list effect) : bool :=
  existsb (fun e => match e with
                    | SetTimeout _ | SetImmediate => true
                    | _ => false
                    end) l.

(* ================================================================= *)
(** ** Notions used to state and prove the properties *)

(** The first argument [updateStatus] gives to a change event. *)
Definition previous (cached fetched : json) : json :=
  if truthy cached then cached else fetched.

(** What the body of a refresh does, as a function of what it reads:
    the flag, the listener table and its own cache cell.  It gives the
    value stored in the cell, if any, the log and the completion. *)
Definition refresh_step (flag : bool) (table : list (string * listener))
    (cached : json) (change : json -> json -> event) (r : response)
  : option json * list effect * completion json :=
  match r with
  | Rejected e => (None, [], Throw e)
  | Resolved v =>
      if flag && negb (equal v cached) then
        match deliver table (change (previous cached v) v) with
        | Normal _ => (Some v, [Emit (change (previous cached v) v)], Normal v)
        | Throw err =>
            match deliver table (ErrorEvent err) with
            | Normal _ =>
                (Some v, [Emit (change (previous cached v) v);
                          Emit (ErrorEvent err)], Normal v)
            | Throw err' =>
                (None, [Emit (change (previous cached v) v);
                        Emit (ErrorEvent err)], Throw err')
            end
        end
      else (None, [], Normal v)
  end.

Definition store (cell : json -> VLC -> VLC) (n : option json) (s : VLC)
  : VLC :=
  match n with Some v => cell v s | None => s end.

Definition status_step (s : VLC) (r : response) :=
  refresh_step (_changeEvents s) (_events s) (_status s) StatusChange r.

Definition playlist_step (s : VLC) (r : response) :=
  refresh_step (_changeEvents s) (_events s) (_playlist s) PlaylistChange r.

(** Whether the chain on the probe reaches [_doTick]: [autoUpdate] is
    on and the step before it did not throw. *)
Definition loop_entered (s : VLC) (r : response) : bool :=
  _autoUpdate s &&
  match r with
  | Resolved _ => true
  | Rejected e => negb (is_throw (deliver (_events s) (ErrorEvent e)))
  end.

(** The two loops inside [equal], by name. *)
Fixpoint items_equal (xs ys : list json) : bool :=
  match xs, ys with
  | [], [] => true
  | x :: xs', y :: ys' => equal x y && items_equal xs' ys'
  | _, _ => false
  end.

Definition field_equal (ys : list (string * json)) (kv : string * json)
  : bool :=
  match field (fst kv) ys with
  | Some w => equal (snd kv) w
  | None => false
  end.

(* ================================================================= *)
(** ** The rest of the class: the clock reading and the other actions *)

(** [getNano()]: [process.hrtime()] gives the whole seconds and the
    nanoseconds within the current second.  The sum is exact here; it is
    the double the code computes as long as it is below 2^53. *)
Definition getNano (hrtime : Z * Z) : Q :=
  inject_Z (fst hrtime) * s2nano + inject_Z (snd hrtime).

(** The other action wrappers.  A numeric argument is taken as the
    parameter value the caller passes ([VNum n] for the number [n],
    [VUndefined] when it is left out). *)
Definition addSubtitle (uri : string) : M unit :=
  _sendCommand STATUS (Some "addsubtitle") (Some [("input", VStr uri)]).
Definition play (id : qvalue) : M unit :=
  _sendCommand STATUS (Some "pl_play") (Some [("id", id)]).
Definition pause (id : qvalue) : M unit :=
  _sendCommand STATUS (Some "pl_pause") (Some [("id", id)]).
Definition resume : M unit :=
  _sendCommand STATUS (Some "pl_forceresume") None.
Definition playlistNext : M unit :=
  _sendCommand STATUS (Some "pl_next") None.
Definition playlistPrevious : M unit :=
  _sendCommand STATUS (Some "pl_previous") None.
Definition playlistDelete (id : qvalue) : M unit :=
  _sendCommand STATUS (Some "pl_delete") (Some [("id", id)]).
Definition playlistEmpty : M unit :=
  _sendCommand STATUS (Some "pl_empty") None.
Definition setAudioDelay (delay : qvalue) : M unit :=
  _sendCommand STATUS (Some "audiodelay") (Some [("val", delay)]).
Definition setSubtitleDelay (delay : qvalue) : M unit :=
  _sendCommand STATUS (Some "subdelay") (Some [("val", delay)]).
Definition setPlaybackRate (rate : qvalue) : M unit :=
  _sendCommand STATUS (Some "rate") (Some [("val", rate)]).
Definition setAspectRatio (ratio : string) : M unit :=
  _sendCommand STATUS (Some "aspectratio") (Some [("val", VStr ratio)]).
Definition setVolume (volume : qvalue) : M unit :=
  _sendCommand STATUS (Some "volume") (Some [("val", volume)]).
Definition setPreamp (value : qvalue) : M unit :=
  _sendCommand STATUS (Some "preamp") (Some [("val", value)]).
Definition setEqualizer (band gain : qvalue) : M unit :=
  _sendCommand STATUS (Some "equalizer") (Some [("band", band); ("val", gain)]).
Definition setEqualizerPreset (id : qvalue) : M unit :=
  _sendCommand STATUS (Some "equalizer") (Some [("val", id)]).
Definition toggleRandom : M unit :=
  _sendCommand STATUS (Some "pl_random") None.
Definition toggleLoop : M unit :=
  _sendCommand STATUS (Some "pl_loop") None.
Definition toggleRepeat : M unit :=
  _sendCommand STATUS (Some "pl_repeat") None.
Definition toggleFullscreen : M unit :=
  _sendCommand STATUS (Some "fullscreen") None.
Definition seek (time : qvalue) : M unit :=
  _sendCommand STATUS (Some "seek") (Some [("val", time)]).
Definition seekToChapter (chapter : qvalue) : M unit :=
  _sendCommand STATUS (Some "chapter") (Some [("val", chapter)]).

(** The action surface: one constructor per wrapper. *)
Inductive Action : Type :=
| AddToQueueAndPlay (uri : string) (option : qvalue)
| AddToQueue (uri : string)
| AddSubtitle (uri : string)
| Play (id : qvalue)
| Pause (id : qvalue)
| Stop
| Resume
| ForcePause
| PlaylistNext
| PlaylistPrevious
| PlaylistDelete (id : qvalue)
| PlaylistEmpty
| SortPlaylist (order mode : Z)
| SetAudioDelay (delay : qvalue)
| SetSubtitleDelay (delay : qvalue)
| SetPlaybackRate (rate : qvalue)
| SetAspectRatio (ratio : string)
| SetVolume (volume : qvalue)
| SetPreamp (value : qvalue)
| SetEqualizer (band gain : qvalue)
| SetEqualizerPreset (id : qvalue)
| ToggleRandom
| ToggleLoop
| ToggleRepeat
| ToggleFullscreen
| Seek (time : qvalue)
| SeekToChapter (chapter : qvalue).

(** A call of the method the constructor names. *)
Definition invoke (a : Action) : M unit :=
  match a with
  | AddToQueueAndPlay uri option => addToQueueAndPlay uri option
  | AddToQueue uri => addToQueue uri
  | AddSubtitle uri => addSubtitle uri
  | Play id => play id
  | Pause id => pause id
  | Stop => stop
  | Resume => resume
  | ForcePause => forcePause
  | PlaylistNext => playlistNext
  | PlaylistPrevious => playlistPrevious
  | PlaylistDelete id => playlistDelete id
  | PlaylistEmpty => playlistEmpty
  | SortPlaylist order mode => sortPlaylist order mode
  | SetAudioDelay delay => setAudioDelay delay
  | SetSubtitleDelay delay => setSubtitleDelay delay
  | SetPlaybackRate rate => setPlaybackRate rate
  | SetAspectRatio ratio => setAspectRatio ratio
  | SetVolume volume => setVolume volume
  | SetPreamp value => setPreamp value
  | SetEqualizer band gain => setEqualizer band gain
  | SetEqualizerPreset id => setEqualizerPreset id
  | ToggleRandom => toggleRandom
  | ToggleLoop => toggleLoop
  | ToggleRepeat => toggleRepeat
  | ToggleFullscreen => toggleFullscreen
  | Seek time => seek time
  | SeekToChapter chapter => seekToChapter chapter
  end.

(** The fields that only the constructor writes. *)
Definition config (s : VLC)
  : string * Q * bool * bool * string * (Q * Q * Q * Q) :=
  (_host s, _port s, _autoUpdate s, _changeEvents s, _authorization s,
   (_tickLengthMs s, _tickLengthNano s, _longWaitMs s, _longWaitNano s)).

(** How the constructor relates the four tick lengths. *)
Definition timing_ok (s : VLC) : Prop :=
  16 <= _tickLengthMs s
  /\ _tickLengthNano s == _tickLengthMs s * ms2nano
  /\ _longWaitMs s == inject_Z (Qfloor (_tickLengthMs s - 1))
  /\ _longWaitNano s == _longWaitMs s * ms2nano.

(** The previous fire is not after the next target. *)
Definition clock_ok (s : VLC) : Prop := _prev s <= _target s.

(** A time that is a whole number of nanoseconds, from 0 to below 2^53.
    Such a time is a double; a sum or a difference of two of them that
    is one again is the double the code computes, with no rounding. *)
Definition whole_nanos (t : Q) : bool :=
  let r := Qred t in
  (Qden r =? 1)%positive && (0 <=? Qnum r)%Z
  && (Qnum r <? 9007199254740992)%Z.


(** The two clock fields and the two cache cells. *)
Definition clock (s : VLC) : Q * Q := (_prev s, _target s).

Definition cache (s : VLC) : json * json := (_status s, _playlist s).

(** The timer [_doTick] sets, by the clock it leaves and its second
    reading of the time. *)
Definition next_timer (s : VLC) (now' : Q) : effect :=
  if negb (Qle_bool (_target s - now') (_longWaitNano s))
  then SetTimeout (Math_max (_longWaitMs s) (_tickLengthMs s))
  else SetImmediate.

(** A request carries the host, the port and the credentials of [s]. *)
Definition addressed_by (s : VLC) (rq : RequestOptions) : Prop :=
  req_host rq = _host s /\ req_port rq = _port s
  /\ req_Authorization rq = _authorization s.

(** How often a character occurs in a string. *)
Fixpoint count_char (c : ascii) (s : string) : nat :=
  match s with
  | "" => 0
  | String x rest => (if Ascii.eqb x c then 1 else 0) + count_char c rest
  end.

(** Every character of the string is one [querystring.escape] leaves
    alone. *)
Fixpoint unreserved (s : string) : bool :=
  match s with
  | "" => true
  | String x rest => noEscape x && unreserved rest
  end.


(* ================================================================= *)
(** ** Sample objects *)

Module Sample.

Definition options : VLCOptions :=
  {| host := None; port := None; username := "user"; password := "pass";
     autoUpdate := None; tickLengthMs := Some 16; changeEvents := None |}.

(** The object right after [new VLC(options)] at clock 0. *)
Definition fresh : VLC := final (constructor options 0).

(** The same, built with [changeEvents: false]. *)
Definition silent : VLC :=
  final (constructor
           {| host := None; port := None; username := "user";
              password := "pass"; autoUpdate := None;
              tickLengthMs := Some 16; changeEvents := Some false |} 0).

Definition quiet : listener := fun _ => None.
Definition failing : listener := fun _ => Some (Err "listener failed").

Definition playing : json :=
  JObj [("state", JStr "playing");
        ("information",
         JObj [("chapter", JNum 0);
               ("category",
                JObj [("meta", JObj [("filename", JStr "a.mkv");
                                     ("encoded_by", JStr "x")])])])].

(** [playing] as another response could spell it: the same keys and
    values, inserted in another order at each level. *)
Definition playing_reordered : json :=
  JObj [("information",
         JObj [("category",
                JObj [("meta", JObj [("encoded_by", JStr "x");
                                     ("filename", JStr "a.mkv")])]);
               ("chapter", JNum 0)]);
        ("state", JStr "playing")].

Definition paused : json :=
  JObj [("state", JStr "paused"); ("volume", JNum 256)].

Definition playlist : json :=
  JObj [("type", JStr "node"); ("children", JArr [])].

Definition refused : exn := Err "connect ECONNREFUSED".

End Sample.

(* ================================================================= *)
(** ** The dispatcher as the spec words it *)

Module Spec.

(** "every key in params whose value is defined (undefined values are
    omitted, not serialized as empty)". *)
Definition defined_only (o : params) : params :=
  filter (fun kv => match snd kv with VUndefined => false | _ => true end) o.

(** The path of a dispatch with a command name. *)
Definition command_path (scope : CommandScope) (command : string)
    (o : params) : string :=
  scope_path scope ++ "?" ++
  stringify (spread [("command", VStr command)] (defined_only o)).

(** "If no command is given, params (if any) are serialized alone." *)
Definition params_path (scope : CommandScope) (o : params) : string :=
  scope_path scope ++ "?" ++ stringify o.

End Spec.

(* ================================================================= *)
(** ** Properties of the dispatcher *)

Section Dispatcher.

Example base64_credentials :
  base64 "user:pass" = "dXNlcjpwYXNz" /\ base64 ":pw" = "OnB3"
  /\ base64 "a:bc" = "YTpiYw==".
Proof. repeat split. Qed.

Example stringify_fields :
  stringify [("foo", VStr "a b/c"); ("baz", VUndefined); ("n", VNum (-5))]
  = "foo=a%20b%2Fc&baz=&n=-5".
Proof. reflexivity. Qed.

Example addToQueue_request :
  map req_path (requests (log (addToQueue "file:///a b.mkv" Sample.fresh)))
  = ["/requests/status.json?command=in_enqueue&input=file%3A%2F%2F%2Fa%20b.mkv"].
Proof. reflexivity. Qed.

Example stop_is_forcePause (s : VLC) : stop s = forcePause s.
Proof. reflexivity. Qed.

Example sortPlaylist_request :
  map req_path (requests (log (sortPlaylist 1 5 Sample.fresh)))
  = ["/requests/status.json?command=pl_sort&id=5&val=1"].
Proof. reflexivity. Qed.

Lemma obj_set_fresh (k : string) (v : qvalue) (o : params) :
  ~ In k (map fst o) -> obj_set k v o = (o ++ [(k, v)])%list.
Proof.
  induction o as [| [k' v'] o IH]; intros Hk; simpl.
  - reflexivity.
  - destruct (String.eqb_spec k k') as [-> | Hne].
    + exfalso. apply Hk. simpl. now left.
    + rewrite IH; [reflexivity |]. intros Hin. apply Hk. simpl. now right.
Qed.

Lemma spread_fresh (o base : params) :
  NoDup (map fst o) ->
  (forall k, In k (map fst o) -> ~ In k (map fst base)) ->
  spread base o = (base ++ o)%list.
Proof.
  unfold spread. revert base.
  induction o as [| [k v] o IH]; intros base Hnd Hfresh; simpl.
  - now rewrite app_nil_r.
  - simpl in Hnd. inversion Hnd as [| ? ? Hk Hnd']; subst.
    rewrite obj_set_fresh by (apply Hfresh; simpl; now left).
    rewrite IH; [now rewrite <- app_assoc | assumption |].
    intros k' Hin. rewrite map_app, in_app_iff. simpl.
    intros [Hb | [<- | []]].
    + apply (Hfresh k'); [simpl; now right | assumption].
    + contradiction.
Qed.

Lemma spread_command (c : string) (o : params) :
  NoDup (map fst o) -> ~ In "command" (map fst o) ->
  spread [("command", VStr c)] o = ("command", VStr c) :: o.
Proof.
  intros Hnd Hc. rewrite spread_fresh; [reflexivity | assumption |].
  intros k Hin [<- | []]. contradiction.
Qed.

Lemma concat_cons_truthy (c : ascii) (x : string) (l : list string) :
  truthy_string (Some (String.concat "&" (String c x :: l))) = true.
Proof. destruct l; reflexivity. Qed.

(** A dispatch without a command name never gets a query: [query] is
    still [null] where the second branch tests it. *)
Lemma sendCommand_no_command (scope : CommandScope)
    (options : option params) (s : VLC) :
  _sendCommand scope None options s =
  (s, [Get {| req_host := _host s; req_port := _port s;
              req_path := scope_path scope ++ "";
              req_Authorization := _authorization s |}], Normal tt).
Proof. reflexivity. Qed.

End Dispatcher.

(** C5, as the code has it: for every dispatch with a command name and
    a params object that has no key named [command], no key starting
    with a digit and only safe integers as numbers, the query string is
    [command=<name>] followed by one field per key of the params
    object, in insertion order, whether the key's value is defined or
    not; a key whose value is [undefined] is kept and serialized with an
    empty value. *)
Theorem sendCommand_query_keeps_every_key
    (scope : CommandScope) (c : string) (o : params) (s : VLC) :
  c <> "" -> NoDup (map fst o) -> ~ In "command" (map fst o) ->
  plain_params o ->
  map req_path (requests (log (_sendCommand scope (Some c) (Some o) s)))
  = [scope_path scope ++ "?" ++
     String.concat "&" (("command=" ++ qsEscape c) :: map stringifyField o)]
  /\ (forall k, stringifyField (k, VUndefined) = qsEscape k ++ "=").
Proof.
  intros Hc Hnd Hcmd _. split.
  - assert (Ht : truthy_string (Some c) = true).
    { simpl. destruct (String.eqb_spec c ""); [contradiction | reflexivity]. }
    unfold _sendCommand, bind, get_this, perform, log.
    cbn -[truthy_string spread stringify String.append].
    rewrite Ht. rewrite spread_command by assumption.
    unfold stringify. cbn [map].
    change (stringifyField ("command", VStr c))
      with (String "c" ("ommand=" ++ qsEscape c)).
    rewrite concat_cons_truthy. reflexivity.
  - intros k. unfold stringifyField. simpl.
    reflexivity.
Qed.

Lemma sendCommand_query_keeps_every_key_witness :
  map req_path
    (requests (log (_sendCommand STATUS (Some "in_play")
                      (Some [("input", VStr "a"); ("option", VUndefined)])
                      Sample.fresh)))
  = ["/requests/status.json?command=in_play&input=a&option="].
Proof.
  apply (proj1 (sendCommand_query_keeps_every_key STATUS "in_play"
                  [("input", VStr "a"); ("option", VUndefined)] Sample.fresh
                  ltac:(discriminate)
                  ltac:(repeat constructor; simpl; intuition discriminate)
                  ltac:(simpl; intuition discriminate)
                  ltac:(repeat constructor))).
Defined.

(** C5 fails as stated: a dispatch of [in_play] whose params hold the
    key [option] with the value [undefined] (the dispatch that
    [addToQueueAndPlay(uri)] makes) sends that key with an empty value,
    where the query the spec describes has no such key. *)
Lemma sendCommand_sends_undefined_as_empty :
  map req_path
    (requests (log (_sendCommand STATUS (Some "in_play")
                      (Some [("input", VStr "a"); ("option", VUndefined)])
                      Sample.fresh)))
  = ["/requests/status.json?command=in_play&input=a&option="]
  /\ Spec.command_path STATUS "in_play"
       [("input", VStr "a"); ("option", VUndefined)]
     = "/requests/status.json?command=in_play&input=a"
  /\ map req_path
       (requests (log (_sendCommand STATUS (Some "in_play")
                         (Some [("input", VStr "a"); ("option", VUndefined)])
                         Sample.fresh)))
     <> [Spec.command_path STATUS "in_play"
           [("input", VStr "a"); ("option", VUndefined)]]
  /\ addToQueueAndPlay "a" VUndefined Sample.fresh
     = _sendCommand STATUS (Some "in_play")
         (Some [("input", VStr "a"); ("option", VUndefined)]) Sample.fresh.
Proof.
  split; [reflexivity | split; [reflexivity | split; [| reflexivity]]].
  vm_compute. discriminate.
Qed.

(** C6, what the code does: [browse(path)] requests the bare browse
    path, whatever [path] is; no [dir] parameter is sent. *)
Theorem browse_sends_no_dir (path : string) (s : VLC) :
  map req_path (requests (log (browse path s))) = ["/requests/browse.json"]
  /\ (Spec.params_path BROWSE [("dir", VStr "/home")]
      = "/requests/browse.json?dir=%2Fhome"
      /\ map req_path (requests (log (browse "/home" s)))
         <> [Spec.params_path BROWSE [("dir", VStr "/home")]]).
Proof.
  split; [reflexivity | split; [reflexivity |]].
  unfold browse. rewrite sendCommand_no_command.
  vm_compute. discriminate.
Qed.

(* ================================================================= *)
(** ** Properties of the state cache *)

Section Cache.

(** The three ways the body of a refresh can go once the values
    differ, by what the listeners do. *)
Lemma updateStatus_resume_changed (s : VLC) (v : json) :
  _changeEvents s = true -> equal v (_status s) = false ->
  updateStatus_resume (Resolved v) s =
  match deliver (_events s) (StatusChange (previous (_status s) v) v) with
  | Normal _ =>
      (with_status v s,
       [Emit (StatusChange (previous (_status s) v) v)], Normal v)
  | Throw err =>
      match deliver (_events s) (ErrorEvent err) with
      | Normal _ =>
          (with_status v s,
           [Emit (StatusChange (previous (_status s) v) v);
            Emit (ErrorEvent err)], Normal v)
      | Throw err' =>
          (s,
           [Emit (StatusChange (previous (_status s) v) v);
            Emit (ErrorEvent err)], Throw err')
      end
  end.
Proof.
  intros Hc He.
  unfold updateStatus_resume, bind, get_this, try_catch, emit, modify, ret,
    await, previous.
  cbn -[equal truthy deliver]. rewrite Hc, He.
  cbn -[equal truthy deliver].
  destruct (deliver _ (StatusChange _ _)) as [[] | err]; [reflexivity |].
  destruct (deliver _ (ErrorEvent err)) as [[] | err']; reflexivity.
Qed.

Lemma updateStatus_resume_unchanged (s : VLC) (v : json) :
  _changeEvents s && negb (equal v (_status s)) = false ->
  updateStatus_resume (Resolved v) s = (s, [], Normal v).
Proof.
  intros H.
  unfold updateStatus_resume, bind, get_this, ret, await.
  cbn -[equal truthy deliver]. rewrite H. reflexivity.
Qed.

Lemma updateStatus_resume_rejected (s : VLC) (e : exn) :
  updateStatus_resume (Rejected e) s = (s, [], Throw e).
Proof. reflexivity. Qed.

Lemma updatePlaylist_resume_changed (s : VLC) (v : json) :
  _changeEvents s = true -> equal v (_playlist s) = false ->
  updatePlaylist_resume (Resolved v) s =
  match deliver (_events s) (PlaylistChange (previous (_playlist s) v) v) with
  | Normal _ =>
      (with_playlist v s,
       [Emit (PlaylistChange (previous (_playlist s) v) v)], Normal v)
  | Throw err =>
      match deliver (_events s) (ErrorEvent err) with
      | Normal _ =>
          (with_playlist v s,
           [Emit (PlaylistChange (previous (_playlist s) v) v);
            Emit (ErrorEvent err)], Normal v)
      | Throw err' =>
          (s,
           [Emit (PlaylistChange (previous (_playlist s) v) v);
            Emit (ErrorEvent err)], Throw err')
      end
  end.
Proof.
  intros Hc He.
  unfold updatePlaylist_resume, bind, get_this, try_catch, emit, modify, ret,
    await, previous.
  cbn -[equal truthy deliver]. rewrite Hc, He.
  cbn -[equal truthy deliver].
  destruct (deliver _ (PlaylistChange _ _)) as [[] | err]; [reflexivity |].
  destruct (deliver _ (ErrorEvent err)) as [[] | err']; reflexivity.
Qed.

Lemma updatePlaylist_resume_unchanged (s : VLC) (v : json) :
  _changeEvents s && negb (equal v (_playlist s)) = false ->
  updatePlaylist_resume (Resolved v) s = (s, [], Normal v).
Proof.
  intros H.
  unfold updatePlaylist_resume, bind, get_this, ret, await.
  cbn -[equal truthy deliver]. rewrite H. reflexivity.
Qed.

Lemma updatePlaylist_resume_rejected (s : VLC) (e : exn) :
  updatePlaylist_resume (Rejected e) s = (s, [], Throw e).
Proof. reflexivity. Qed.

(** The request of a call changes nothing in the object. *)
Lemma sendCommand_run (scope : CommandScope) (command : option string)
    (options : option params) (s : VLC) :
  exists rq, _sendCommand scope command options s = (s, [Get rq], Normal tt).
Proof.
  unfold _sendCommand, bind, get_this, perform. cbn. eauto.
Qed.

Lemma issue_then_resume {A : Type} (scope : CommandScope) (m : M A)
    (s : VLC) :
  final ((_sendCommand scope None None ;; m) s) = final (m s)
  /\ outcome ((_sendCommand scope None None ;; m) s) = outcome (m s)
  /\ emitted (log ((_sendCommand scope None None ;; m) s))
     = emitted (log (m s)).
Proof.
  unfold bind. rewrite sendCommand_no_command.
  destruct (m s) as [[s' l] c]. repeat split.
Qed.

End Cache.

(** C1, as the code has it: after a successful fetch [updateStatus]
    (and likewise [updatePlaylist]) resolves with the fetched value
    whenever it resolves, whatever the [changeEvents] flag is.  The cache
    cell is overwritten with that value only when [changeEvents] is
    enabled and the value is not deep-equal to the cached one; when the
    flag is disabled or the two are deep-equal, the call resolves and
    the cell is left as it was. *)
Theorem update_overwrites_cache_only_on_change (s : VLC) (v : json) :
  (let r := updateStatus (Resolved v) s in
   (forall w, outcome r = Normal w ->
      w = v /\
      _status (final r) =
        if _changeEvents s && negb (equal v (_status s))
        then v else _status s)
   /\ (_changeEvents s && negb (equal v (_status s)) = false ->
       outcome r = Normal v /\ final r = s))
  /\
  (let r := updatePlaylist (Resolved v) s in
   (forall w, outcome r = Normal w ->
      w = v /\
      _playlist (final r) =
        if _changeEvents s && negb (equal v (_playlist s))
        then v else _playlist s)
   /\ (_changeEvents s && negb (equal v (_playlist s)) = false ->
       outcome r = Normal v /\ final r = s)).
Proof.
  split; cbv zeta.
  - unfold updateStatus, updateStatus_issue.
    destruct (issue_then_resume STATUS (updateStatus_resume (Resolved v)) s)
      as (-> & -> & _).
    destruct (_changeEvents s && negb (equal v (_status s))) eqn:Hch.
    + apply andb_true_iff in Hch as [Hc He].
      apply negb_true_iff in He.
      rewrite (updateStatus_resume_changed s v Hc He).
      split; [| discriminate].
      intros w.
      destruct (deliver _ (StatusChange _ _)) as [[] | err]; cbn.
      * intros [= <-]. now split.
      * destruct (deliver _ (ErrorEvent err)) as [[] | err']; cbn.
        -- intros [= <-]. now split.
        -- discriminate.
    + rewrite (updateStatus_resume_unchanged s v Hch). cbn.
      split; [intros w [= <-] |]; now split.
  - unfold updatePlaylist, updatePlaylist_issue.
    destruct (issue_then_resume PLAYLIST
                (updatePlaylist_resume (Resolved v)) s) as (-> & -> & _).
    destruct (_changeEvents s && negb (equal v (_playlist s))) eqn:Hch.
    + apply andb_true_iff in Hch as [Hc He].
      apply negb_true_iff in He.
      rewrite (updatePlaylist_resume_changed s v Hc He).
      split; [| discriminate].
      intros w.
      destruct (deliver _ (PlaylistChange _ _)) as [[] | err]; cbn.
      * intros [= <-]. now split.
      * destruct (deliver _ (ErrorEvent err)) as [[] | err']; cbn.
        -- intros [= <-]. now split.
        -- discriminate.
    + rewrite (updatePlaylist_resume_unchanged s v Hch). cbn.
      split; [intros w [= <-] |]; now split.
Qed.

Lemma update_overwrites_cache_only_on_change_witness :
  outcome (updateStatus (Resolved Sample.playing) Sample.silent)
  = Normal Sample.playing
  /\ final (updateStatus (Resolved Sample.playing) Sample.silent)
     = Sample.silent.
Proof.
  apply (proj2 (proj1 (update_overwrites_cache_only_on_change
                         Sample.silent Sample.playing))).
  reflexivity.
Defined.

(** C1 fails as stated: with [changeEvents] disabled the fetched status
    is returned but the cache cell keeps its old content. *)
Lemma update_leaves_cache_when_events_disabled :
  outcome (updateStatus (Resolved Sample.playing) Sample.silent)
  = Normal Sample.playing
  /\ _status (final (updateStatus (Resolved Sample.playing) Sample.silent))
     = JNull
  /\ _status (final (updateStatus (Resolved Sample.playing) Sample.silent))
     <> Sample.playing.
Proof.
  split; [reflexivity | split; [reflexivity |]].
  vm_compute. discriminate.
Qed.

(* ================================================================= *)
(** ** Structural equality and key order *)

Section DeepEqual.

(** Induction on a JSON value with the hypothesis for every item of an
    array and every value of an object. *)
Lemma json_nested_ind (P : json -> Prop)
    (Hnull : P JNull)
    (Hbool : forall b, P (JBool b))
    (Hnum : forall q, P (JNum q))
    (Hstr : forall s, P (JStr s))
    (Harr : forall xs, Forall P xs -> P (JArr xs))
    (Hobj : forall fs, Forall (fun kv => P (snd kv)) fs -> P (JObj fs)) :
  forall v, P v.
Proof.
  fix IH 1. intros [| b | q | s | xs | fs].
  - exact Hnull.
  - apply Hbool.
  - apply Hnum.
  - apply Hstr.
  - apply Harr. induction xs as [| x xs IHxs]; constructor.
    + apply IH.
    + exact IHxs.
  - apply Hobj. induction fs as [| [k x] fs IHfs]; constructor.
    + apply IH.
    + exact IHfs.
Qed.

Lemma equal_arr (xs ys : list json) :
  equal (JArr xs) (JArr ys) = items_equal xs ys.
Proof.
  revert ys. induction xs as [| x xs IH]; intros [| y ys]; reflexivity.
Qed.

Lemma equal_obj (xs ys : list (string * json)) :
  equal (JObj xs) (JObj ys)
  = (List.length xs =? List.length ys)%nat && forallb (field_equal ys) xs.
Proof.
  cbn. f_equal.
  induction xs as [| [k v] xs IH]; [reflexivity |].
  cbn. unfold field_equal at 1. cbn. now rewrite IH.
Qed.

Lemma distinct_keys_arr (xs : list json) :
  distinct_keys (JArr xs) <-> Forall distinct_keys xs.
Proof.
  cbn. induction xs as [| x xs IH].
  - split; constructor.
  - split.
    + intros [Hx Hxs]. constructor; [exact Hx | now apply IH].
    + intros H. inversion H; subst. split; [assumption | now apply IH].
Qed.

Lemma distinct_keys_obj (fs : list (string * json)) :
  distinct_keys (JObj fs)
  <-> NoDup (map fst fs) /\ Forall (fun kv => distinct_keys (snd kv)) fs.
Proof.
  cbn.
  assert (H : (fix all (fs0 : list (string * json)) : Prop :=
                 match fs0 with
                 | [] => True
                 | (_, x) :: fs' => distinct_keys x /\ all fs'
                 end) fs
              <-> Forall (fun kv => distinct_keys (snd kv)) fs).
  { induction fs as [| [k x] fs IH].
    - split; constructor.
    - split.
      + intros [Hx Hfs]. constructor; [exact Hx | now apply IH].
      + intros H. inversion H; subst. split; [assumption | now apply IH]. }
  tauto.
Qed.

Lemma field_of_distinct (k : string) (w : json)
    (ys : list (string * json)) :
  NoDup (map fst ys) -> In (k, w) ys -> field k ys = Some w.
Proof.
  induction ys as [| [k' v'] ys IH]; intros Hnd Hin; [contradiction |].
  cbn in *. inversion Hnd as [| ? ? Hk Hnd']; subst.
  destruct Hin as [[= -> ->] | Hin].
  - now rewrite String.eqb_refl.
  - destruct (String.eqb_spec k k') as [-> | _].
    + exfalso. apply Hk. apply (in_map fst) in Hin. exact Hin.
    + now apply IH.
Qed.

Lemma Forall2_partner {A B : Type} (R : A -> B -> Prop)
    (xs : list A) (ys : list B) (x : A) :
  Forall2 R xs ys -> In x xs -> exists y, In y ys /\ R x y.
Proof.
  induction 1 as [| x0 y0 xs ys Hxy _ IH]; intros Hin; [contradiction |].
  destruct Hin as [-> | Hin].
  - exists y0. split; [now left | assumption].
  - destruct (IH Hin) as (y & Hy & Hr). exists y. split; [now right | exact Hr].
Qed.

(** Deep equality does not see the insertion order of keys. *)
Lemma reordered_equal (a : json) :
  forall b, distinct_keys b -> reordered a b -> equal a b = true.
Proof.
  induction a as [| x | q | s | xs IH | fs IH] using json_nested_ind;
    intros b Hd Hr; inversion Hr; subst.
  - reflexivity.
  - apply Bool.eqb_reflx.
  - cbn. apply Qeq_bool_refl.
  - cbn. apply String.eqb_refl.
  - rewrite equal_arr. apply distinct_keys_arr in Hd.
    match goal with H : Forall2 reordered _ _ |- _ => rename H into H2 end.
    clear Hr. induction H2 as [| x y xs ys Hxy _ IH2]; [reflexivity |].
    inversion IH; subst. inversion Hd; subst.
    cbn. rewrite andb_true_iff. split; [now auto | now apply IH2].
  - rewrite equal_obj. apply distinct_keys_obj in Hd as [Hnd Hds].
    match goal with
    | Hp : Permutation _ _, H2 : Forall2 _ _ _ |- _ =>
        rename Hp into Hperm; rename H2 into Hfields
    end.
    rewrite andb_true_iff. split.
    + apply Nat.eqb_eq. rewrite (Permutation_length Hperm).
      exact (Forall2_length Hfields).
    + apply forallb_forall. intros [k v] Hin.
      rewrite Forall_forall in IH. specialize (IH _ Hin). cbn in IH.
      apply (Permutation_in _ Hperm) in Hin.
      destruct (Forall2_partner _ _ _ _ Hfields Hin)
        as ([k' w] & Hw & Hk & Hvw).
      cbn in Hk, Hvw. subst k'.
      unfold field_equal. cbn.
      rewrite (field_of_distinct k w _ Hnd Hw).
      apply IH; [| exact Hvw].
      rewrite Forall_forall in Hds. exact (Hds _ Hw).
Qed.

End DeepEqual.

(** C7: with change events enabled, a refresh publishes a
    [statuschange] event if and only if the fetched status is not
    deep-equal to the cached one, and then exactly one; a fetched status
    that is the cached one up to the insertion order of keys, at any
    depth, publishes none. *)
Theorem statuschange_iff_structurally_unequal (s : VLC) (v : json) :
  _changeEvents s = true ->
  events_named "statuschange" (log (updateStatus (Resolved v) s))
  = (if equal v (_status s) then []
     else [StatusChange (previous (_status s) v) v])
  /\ (events_named "statuschange" (log (updateStatus (Resolved v) s)) <> []
      <-> equal v (_status s) = false)
  /\ (distinct_keys (_status s) -> reordered v (_status s) ->
      events_named "statuschange" (log (updateStatus (Resolved v) s)) = []).
Proof.
  intros Hc.
  assert (Hev : events_named "statuschange"
                  (log (updateStatus (Resolved v) s))
                = if equal v (_status s) then []
                  else [StatusChange (previous (_status s) v) v]).
  { unfold events_named, updateStatus, updateStatus_issue.
    destruct (issue_then_resume STATUS (updateStatus_resume (Resolved v)) s)
      as (_ & _ & ->).
    destruct (equal v (_status s)) eqn:He.
    - rewrite updateStatus_resume_unchanged; [reflexivity |].
      rewrite Hc, He. reflexivity.
    - rewrite (updateStatus_resume_changed s v Hc He).
      destruct (deliver _ (StatusChange _ _)) as [[] | err]; [reflexivity |].
      destruct (deliver _ (ErrorEvent err)) as [[] | err']; reflexivity. }
  split; [exact Hev |]. rewrite Hev. split.
  - destruct (equal v (_status s)); split; congruence.
  - intros Hd Hr. now rewrite (reordered_equal v (_status s) Hd Hr).
Qed.

Lemma statuschange_iff_structurally_unequal_witness :
  events_named "statuschange"
    (log (updateStatus (Resolved Sample.playing_reordered)
            (with_status Sample.playing Sample.fresh))) = []
  /\ events_named "statuschange"
       (log (updateStatus (Resolved Sample.paused)
               (with_status Sample.playing Sample.fresh)))
     = [StatusChange Sample.playing Sample.paused].
Proof.
  split.
  - apply (proj2 (proj2 (statuschange_iff_structurally_unequal
                           (with_status Sample.playing Sample.fresh)
                           Sample.playing_reordered eq_refl))).
    + simpl. repeat split; repeat constructor; simpl; intuition discriminate.
    + simpl. unfold Sample.playing_reordered, Sample.playing.
      eapply reordered_obj; [apply perm_swap |].
      repeat constructor; simpl.
      eapply reordered_obj; [apply perm_swap |].
      repeat constructor; simpl.
      eapply reordered_obj; [apply Permutation_refl |].
      repeat constructor; simpl.
      eapply reordered_obj; [apply perm_swap |].
      repeat constructor.
  - apply (proj1 (statuschange_iff_structurally_unequal
                    (with_status Sample.playing Sample.fresh)
                    Sample.paused eq_refl)).
Defined.

(** C10, as the code has it: when a change listener throws during a
    refresh and the [error] event is delivered without an exception (it
    has a listener, and none of its listeners throws), the exception is
    re-emitted as an [error] event, the cache cell is overwritten with
    the fetched value and the call resolves with it. *)
Theorem change_listener_exception_is_rerouted
    (s : VLC) (v : json) (err : exn) :
  _changeEvents s = true ->
  deliver (_events s) (ErrorEvent err) = Normal tt ->
  (equal v (_status s) = false ->
   deliver (_events s) (StatusChange (previous (_status s) v) v) = Throw err ->
   let r := updateStatus (Resolved v) s in
   outcome r = Normal v /\ final r = with_status v s /\
   emitted (log r)
   = [StatusChange (previous (_status s) v) v; ErrorEvent err])
  /\
  (equal v (_playlist s) = false ->
   deliver (_events s) (PlaylistChange (previous (_playlist s) v) v)
   = Throw err ->
   let r := updatePlaylist (Resolved v) s in
   outcome r = Normal v /\ final r = with_playlist v s /\
   emitted (log r)
   = [PlaylistChange (previous (_playlist s) v) v; ErrorEvent err]).
Proof.
  intros Hc Herr. split; intros He Hthrow; cbv zeta.
  - unfold updateStatus, updateStatus_issue.
    destruct (issue_then_resume STATUS (updateStatus_resume (Resolved v)) s)
      as (-> & -> & ->).
    rewrite (updateStatus_resume_changed s v Hc He), Hthrow, Herr.
    repeat split.
  - unfold updatePlaylist, updatePlaylist_issue.
    destruct (issue_then_resume PLAYLIST
                (updatePlaylist_resume (Resolved v)) s) as (-> & -> & ->).
    rewrite (updatePlaylist_resume_changed s v Hc He), Hthrow, Herr.
    repeat split.
Qed.

Lemma change_listener_exception_is_rerouted_witness :
  let s := on "error" Sample.quiet
             (on "statuschange" Sample.failing Sample.fresh) in
  let r := updateStatus (Resolved Sample.playing) s in
  outcome r = Normal Sample.playing /\
  final r = with_status Sample.playing s /\
  emitted (log r)
  = [StatusChange Sample.playing Sample.playing;
     ErrorEvent (Err "listener failed")].
Proof.
  exact (proj1 (change_listener_exception_is_rerouted
                  (on "error" Sample.quiet
                     (on "statuschange" Sample.failing Sample.fresh))
                  Sample.playing (Err "listener failed") eq_refl eq_refl)
               eq_refl eq_refl).
Defined.

(** C10 fails as stated: with no [error] listener registered, the
    exception of a [statuschange] listener leaves [updateStatus] as a
    rejection and the cache cell is not overwritten. *)
Lemma change_listener_exception_without_error_listener :
  let s := on "statuschange" Sample.failing Sample.fresh in
  let r := updateStatus (Resolved Sample.playing) s in
  outcome r = Throw (Err "listener failed") /\
  outcome r <> Normal Sample.playing /\
  _status (final r) = JNull /\
  _status (final r) <> Sample.playing /\
  emitted (log r)
  = [StatusChange Sample.playing Sample.playing;
     ErrorEvent (Err "listener failed")].
Proof.
  cbv zeta. repeat split; try reflexivity; vm_compute; discriminate.
Qed.

(* ================================================================= *)
(** ** Properties of [updateAll] *)

Section UpdateAll.

Lemma updateStatus_resume_step (s : VLC) (r : response) :
  updateStatus_resume r s =
  (store with_status (fst (fst (status_step s r))) s,
   snd (fst (status_step s r)), snd (status_step s r)).
Proof.
  unfold status_step, refresh_step. destruct r as [e | v]; [reflexivity |].
  destruct (_changeEvents s && negb (equal v (_status s))) eqn:Hch.
  - apply andb_true_iff in Hch as [Hc He]. apply negb_true_iff in He.
    rewrite (updateStatus_resume_changed s v Hc He).
    destruct (deliver _ (StatusChange _ _)) as [[] | err]; [reflexivity |].
    destruct (deliver _ (ErrorEvent err)) as [[] | err']; reflexivity.
  - now rewrite updateStatus_resume_unchanged.
Qed.

Lemma updatePlaylist_resume_step (s : VLC) (r : response) :
  updatePlaylist_resume r s =
  (store with_playlist (fst (fst (playlist_step s r))) s,
   snd (fst (playlist_step s r)), snd (playlist_step s r)).
Proof.
  unfold playlist_step, refresh_step. destruct r as [e | v]; [reflexivity |].
  destruct (_changeEvents s && negb (equal v (_playlist s))) eqn:Hch.
  - apply andb_true_iff in Hch as [Hc He]. apply negb_true_iff in He.
    rewrite (updatePlaylist_resume_changed s v Hc He).
    destruct (deliver _ (PlaylistChange _ _)) as [[] | err]; [reflexivity |].
    destruct (deliver _ (ErrorEvent err)) as [[] | err']; reflexivity.
  - now rewrite updatePlaylist_resume_unchanged.
Qed.

(** A refresh reads nothing that the other refresh writes. *)
Lemma status_step_frame (n : option json) (s : VLC) (r : response) :
  status_step (store with_playlist n s) r = status_step s r.
Proof. destruct n; reflexivity. Qed.

Lemma playlist_step_frame (n : option json) (s : VLC) (r : response) :
  playlist_step (store with_status n s) r = playlist_step s r.
Proof. destruct n; reflexivity. Qed.

Lemma refresh_step_resolved (flag : bool) (table : list (string * listener))
    (cached : json) (change : json -> json -> event) (r : response)
    (w : json) :
  snd (refresh_step flag table cached change r) = Normal w ->
  r = Resolved w.
Proof.
  unfold refresh_step. destruct r as [e | v]; [discriminate |].
  destruct (flag && negb (equal v cached)); [| now intros [= ->]].
  destruct (deliver table (change _ _)) as [[] | err]; [now intros [= ->] |].
  destruct (deliver table (ErrorEvent err)); [now intros [= ->] | discriminate].
Qed.


Lemma events_named_app (name : string) (l1 l2 : list effect) :
  events_named name (l1 ++ l2)%list
  = (events_named name l1 ++ events_named name l2)%list.
Proof.
  unfold events_named, emitted.
  now rewrite flat_map_app, filter_app.
Qed.

Lemma refresh_step_no_update (flag : bool)
    (table : list (string * listener)) (cached : json)
    (change : json -> json -> event) (r : response) :
  (forall a b, String.eqb (event_name (change a b)) "update" = false) ->
  events_named "update" (snd (fst (refresh_step flag table cached change r)))
  = [].
Proof.
  intros Hname. unfold refresh_step. destruct r as [e | v]; [reflexivity |].
  destruct (flag && negb (equal v cached)); [| reflexivity].
  destruct (deliver table (change _ _)) as [[] | err].
  - unfold events_named. cbn. now rewrite Hname.
  - destruct (deliver table (ErrorEvent err));
      unfold events_named; cbn; now rewrite Hname.
Qed.

Lemma status_step_no_update (s : VLC) (r : response) :
  events_named "update" (snd (fst (status_step s r))) = [].
Proof. now apply refresh_step_no_update. Qed.

Lemma playlist_step_no_update (s : VLC) (r : response) :
  events_named "update" (snd (fst (playlist_step s r))) = [].
Proof. now apply refresh_step_no_update. Qed.

Lemma updateAll_issue_run (s : VLC) :
  exists rq1 rq2, updateAll_issue s = (s, [Get rq1; Get rq2], Normal tt).
Proof.
  unfold updateAll_issue, updateStatus_issue, updatePlaylist_issue, bind.
  rewrite !sendCommand_no_command. cbn. eauto.
Qed.

Lemma updateAll_after_issue (first : arrival) (rs rp : response) (s : VLC) :
  final (updateAll first rs rp s)
  = final (updateAll_resume first rs rp unsettle s)
  /\ outcome (updateAll first rs rp s)
     = outcome (updateAll_resume first rs rp unsettle s)
  /\ emitted (log (updateAll first rs rp s))
     = emitted (log (updateAll_resume first rs rp unsettle s)).
Proof.
  unfold updateAll, bind.
  destruct (updateAll_issue_run s) as (rq1 & rq2 & ->).
  destruct (updateAll_resume first rs rp unsettle s) as [[s' l] c].
  repeat split.
Qed.

Lemma updateStatus_outcome (s : VLC) (r : response) :
  outcome (updateStatus r s) = snd (status_step s r).
Proof.
  unfold updateStatus, updateStatus_issue.
  destruct (issue_then_resume STATUS (updateStatus_resume r) s)
    as (_ & -> & _).
  now rewrite updateStatus_resume_step.
Qed.

Lemma updatePlaylist_outcome (s : VLC) (r : response) :
  outcome (updatePlaylist r s) = snd (playlist_step s r).
Proof.
  unfold updatePlaylist, updatePlaylist_issue.
  destruct (issue_then_resume PLAYLIST (updatePlaylist_resume r) s)
    as (_ & -> & _).
  now rewrite updatePlaylist_resume_step.
Qed.

Lemma updateStatus_emitted (s : VLC) (r : response) :
  emitted (log (updateStatus r s)) = emitted (snd (fst (status_step s r))).
Proof.
  unfold updateStatus, updateStatus_issue.
  destruct (issue_then_resume STATUS (updateStatus_resume r) s)
    as (_ & _ & ->).
  now rewrite updateStatus_resume_step.
Qed.

Lemma updatePlaylist_emitted (s : VLC) (r : response) :
  emitted (log (updatePlaylist r s))
  = emitted (snd (fst (playlist_step s r))).
Proof.
  unfold updatePlaylist, updatePlaylist_issue.
  destruct (issue_then_resume PLAYLIST (updatePlaylist_resume r) s)
    as (_ & _ & ->).
  now rewrite updatePlaylist_resume_step.
Qed.

Lemma events_named_ext (name : string) (l1 l2 : list effect) :
  emitted l1 = emitted l2 -> events_named name l1 = events_named name l2.
Proof. unfold events_named. now intros ->. Qed.

Lemma events_store_status (n : option json) (s : VLC) :
  _events (store with_status n s) = _events s.
Proof. now destruct n. Qed.

Lemma events_store_playlist (n : option json) (s : VLC) :
  _events (store with_playlist n s) = _events s.
Proof. now destruct n. Qed.

End UpdateAll.

(** Case analysis on what the listeners of each emitted event do. *)
Ltac split_deliver :=
  repeat match goal with
         | |- context [deliver ?t ?e] =>
             let err := fresh "err" in
             destruct (deliver t e) as [[] | err] eqn:?
         end.

(** Runs the two refreshes of an [updateAll] symbolically. *)
Ltac run_refreshes :=
  repeat first
    [ rewrite updateStatus_resume_rejected
    | rewrite updatePlaylist_resume_rejected
    | rewrite updateStatus_resume_step
    | rewrite updatePlaylist_resume_step
    | rewrite status_step_frame
    | rewrite playlist_step_frame
    | rewrite events_store_status
    | rewrite events_store_playlist
    | progress cbn -[events_named status_step playlist_step store] ].

(** C8: an [updateAll] that resolves has published exactly one [update]
    event, carrying the fetched status and playlist, and resolves with
    that pair; whenever both refreshes succeed the event is published
    once, changed or not.  If either refresh fails, no [update] event is
    published and the call rejects with the error of a failed refresh. *)
Theorem updateAll_publishes_one_update
    (first : arrival) (rs rp : response) (s : VLC) :
  let r := updateAll first rs rp s in
  (forall st pl, outcome r = Normal (st, pl) ->
     rs = Resolved st /\ rp = Resolved pl /\
     events_named "update" (log r) = [Update st pl])
  /\ (forall st pl,
        outcome (updateStatus rs s) = Normal st ->
        outcome (updatePlaylist rp s) = Normal pl ->
        events_named "update" (log r) = [Update st pl] /\
        (deliver (_events s) (Update st pl) = Normal tt ->
         outcome r = Normal (st, pl)))
  /\ (is_throw (outcome (updateStatus rs s)) = true \/
      is_throw (outcome (updatePlaylist rp s)) = true ->
      events_named "update" (log r) = [] /\
      exists e, outcome r = Throw e /\
        (outcome (updateStatus rs s) = Throw e \/
         outcome (updatePlaylist rp s) = Throw e)).
Proof.
  cbv zeta.
  destruct (updateAll_after_issue first rs rp s) as (_ & Ho & He).
  rewrite Ho, (events_named_ext _ _ _ He). clear Ho He.
  rewrite updateStatus_outcome, updatePlaylist_outcome.
  pose proof (status_step_no_update s rs) as HnA.
  pose proof (playlist_step_no_update s rp) as HnB.
  pose proof (refresh_step_resolved (_changeEvents s) (_events s)
                (_status s) StatusChange rs) as HrA.
  pose proof (refresh_step_resolved (_changeEvents s) (_events s)
                (_playlist s) PlaylistChange rp) as HrB.
  fold (status_step s rs) in HrA. fold (playlist_step s rp) in HrB.
  unfold updateAll_resume, Promise_all, updateAll_body, unsettle, bind,
    settle, try_catch, emit, ret, throw.
  destruct first; run_refreshes;
    destruct (status_step s rs) as [[nA lA] [a | ea]] eqn:EA;
    destruct (playlist_step s rp) as [[nB lB] [b | eb]] eqn:EB;
    repeat (run_refreshes; rewrite ?EA, ?EB); cbn [fst snd] in *;
    split_deliver; run_refreshes;
    rewrite ?events_named_app, ?HnA, ?HnB, ?app_nil_r;
    (split; [| split]);
    try (intros st pl E; inversion E; subst; now auto);
    try (intros st pl E1 E2; inversion E1; inversion E2; subst;
         split; [reflexivity | congruence]);
    try discriminate;
    try (intros [E | E]; discriminate E);
    try (intros _; split; [reflexivity | eauto]).
Qed.

Lemma updateAll_publishes_one_update_witness :
  events_named "update"
    (log (updateAll StatusFirst (Resolved Sample.playing)
            (Resolved Sample.playlist) Sample.fresh))
  = [Update Sample.playing Sample.playlist]
  /\ events_named "update"
       (log (updateAll PlaylistFirst (Resolved Sample.playing)
               (Rejected Sample.refused) Sample.fresh)) = []
  /\ outcome (updateAll PlaylistFirst (Resolved Sample.playing)
                (Rejected Sample.refused) Sample.fresh)
     = Throw Sample.refused.
Proof.
  split; [| split].
  - apply (proj1 (updateAll_publishes_one_update StatusFirst
                    (Resolved Sample.playing) (Resolved Sample.playlist)
                    Sample.fresh) Sample.playing Sample.playlist eq_refl).
  - apply (proj2 (proj2 (updateAll_publishes_one_update PlaylistFirst
                           (Resolved Sample.playing)
                           (Rejected Sample.refused) Sample.fresh))).
    right. reflexivity.
  - reflexivity.
Defined.





(* ================================================================= *)
(** ** Properties of the tick loop *)

Section Scheduler.

Lemma doTick_fire (s : VLC) (now now' : Q) :
  Qle_bool (_target s) now = true ->
  final (_doTick now now' s) = with_clock now (now + _tickLengthNano s) s
  /\ (deliver (_events s) (Tick ((now - _prev s) * nano2s)) = Normal tt ->
      armed (log (_doTick now now' s)) = true).
Proof.
  intros H.
  unfold _doTick, bind, get_this, modify, emit, updateAll_issue,
    updateStatus_issue, updatePlaylist_issue, setTimeout, setImmediate,
    perform, ret.
  cbn -[deliver Qle_bool Qplus Qminus Qmult]. rewrite H.
  cbn -[deliver Qle_bool Qplus Qminus Qmult].
  destruct (deliver _ _) as [[] | err];
    cbn -[deliver Qle_bool Qplus Qminus Qmult].
  - destruct (negb _); split; reflexivity.
  - split; [reflexivity | discriminate].
Qed.

Lemma doTick_idle (s : VLC) (now now' : Q) :
  Qle_bool (_target s) now = false ->
  final (_doTick now now' s) = s
  /\ emitted (log (_doTick now now' s)) = []
  /\ requests (log (_doTick now now' s)) = []
  /\ armed (log (_doTick now now' s)) = true.
Proof.
  intros H.
  unfold _doTick, bind, get_this, setTimeout, setImmediate, perform, ret.
  cbn -[Qle_bool Qplus Qminus Qmult]. rewrite H.
  cbn -[Qle_bool Qplus Qminus Qmult].
  destruct (negb _); repeat split.
Qed.

End Scheduler.

(** C2, as the code has it: at every fire the next target is the fire
    time plus one tick period.  It is ahead of the previous target by
    one period plus the lateness of the fire, and is the previous target
    plus one period only when the fire happens exactly at the target. *)
Theorem doTick_target_is_fire_time_plus_period (s : VLC) (now now' : Q) :
  Qle_bool (_target s) now = true ->
  let s' := final (_doTick now now' s) in
  _target s' = now + _tickLengthNano s
  /\ _prev s' = now
  /\ _target s' - _target s == _tickLengthNano s + (now - _target s)
  /\ 0 <= now - _target s
  /\ (_target s' == _target s + _tickLengthNano s <-> now == _target s).
Proof.
  intros H. cbv zeta.
  rewrite (proj1 (doTick_fire s now now' H)).
  cbn [_target _prev with_clock].
  apply Qle_bool_iff in H.
  repeat split; try reflexivity; try lra.
Qed.

Lemma doTick_target_is_fire_time_plus_period_witness :
  _target (final (_doTick 5 6 Sample.fresh)) = 5 + 16 * ms2nano
  /\ _target (final (_doTick 5 6 Sample.fresh)) - _target Sample.fresh
     == 16 * ms2nano + (5 - 0).
Proof.
  split.
  - exact (proj1 (doTick_target_is_fire_time_plus_period
                    Sample.fresh 5 6 eq_refl)).
  - exact (proj1 (proj2 (proj2 (doTick_target_is_fire_time_plus_period
                                  Sample.fresh 5 6 eq_refl)))).
Defined.

(** C2 fails as stated: a fire 5 ns after the target moves the target by
    the period plus those 5 ns, and two fire times give two targets. *)
Lemma doTick_target_depends_on_fire_time :
  Qle_bool (_target Sample.fresh) 5 = true
  /\ ~ (_target (final (_doTick 5 6 Sample.fresh))
        == _target Sample.fresh + _tickLengthNano Sample.fresh)
  /\ ~ (_target (final (_doTick 5 6 Sample.fresh))
        == _target (final (_doTick 7 8 Sample.fresh))).
Proof.
  split; [reflexivity | split]; vm_compute; discriminate.
Qed.

(* ================================================================= *)
(** ** Properties of the construction *)

(** C3, as the code has it: the constructor sends exactly one request,
    the status probe, and sets no timer.  When the probe has settled, a
    failure is first emitted as an [error] event; then [_doTick] runs
    exactly when [autoUpdate] is on and the probe succeeded or the
    [error] event was delivered without an exception, so a failed probe
    whose error is listened to still starts the loop.  With
    [autoUpdate] off, or when emitting the error throws, nothing more
    is sent and no timer is set. *)
Theorem probe_then_loop
    (options : VLCOptions) (now0 : Q)
    (s : VLC) (r : response) (now now' : Q) :
  (map req_path (requests (log (constructor options now0)))
   = ["/requests/status.json"]
   /\ emitted (log (constructor options now0)) = []
   /\ armed (log (constructor options now0)) = false)
  /\ (forall e, r = Rejected e ->
        exists l, log (probe_settled r now now' s) = Emit (ErrorEvent e) :: l)
  /\ (loop_entered s r = true ->
        final (probe_settled r now now' s) = final (_doTick now now' s)
        /\ armed (log (probe_settled r now now' s))
           = armed (log (_doTick now now' s))
        /\ requests (log (probe_settled r now now' s))
           = requests (log (_doTick now now' s)))
  /\ (loop_entered s r = false ->
        final (probe_settled r now now' s) = s
        /\ armed (log (probe_settled r now now' s)) = false
        /\ requests (log (probe_settled r now now' s)) = [])
  /\ (loop_entered s r = true ->
      Qle_bool (_target s) now = false \/
      deliver (_events s) (Tick ((now - _prev s) * nano2s)) = Normal tt ->
      armed (log (probe_settled r now now' s)) = true).
Proof.
  split; [repeat split |].
  assert (Harm : Qle_bool (_target s) now = false \/
                 deliver (_events s) (Tick ((now - _prev s) * nano2s))
                 = Normal tt ->
                 armed (log (_doTick now now' s)) = true).
  { destruct (Qle_bool (_target s) now) eqn:Hfire.
    - intros [Hf | Hd]; [discriminate |].
      exact (proj2 (doTick_fire s now now' Hfire) Hd).
    - intros _. apply (doTick_idle s now now' Hfire). }
  revert Harm.
  unfold loop_entered, probe_settled, bind, get_this, emit, ret.
  destruct r as [e | body]; cbn -[_doTick deliver Qle_bool].
  - destruct (deliver _ (ErrorEvent e)) as [[] | err];
      cbn -[_doTick deliver Qle_bool].
    + destruct (_autoUpdate s); cbn -[_doTick deliver Qle_bool].
      * destruct (_doTick now now' s) as [[s' l] c]. cbn -[deliver Qle_bool].
        intros Harm. repeat split; try discriminate; auto.
        intros e0 [= <-]. eauto.
      * intros _. repeat split; try discriminate. intros e0 [= <-]. eauto.
    + rewrite andb_false_r. intros _.
      repeat split; try discriminate. intros e0 [= <-]. eauto.
  - destruct (_autoUpdate s); cbn -[_doTick deliver Qle_bool].
    + destruct (_doTick now now' s) as [[s' l] c]. cbn -[deliver Qle_bool].
      intros Harm. repeat split; try discriminate; auto.
    + intros _. repeat split; discriminate.
Qed.

Lemma probe_then_loop_witness :
  armed (log (probe_settled (Rejected Sample.refused) 5 6
                (on "error" Sample.quiet Sample.fresh)))
  = armed (log (_doTick 5 6 (on "error" Sample.quiet Sample.fresh)))
  /\ armed (log (probe_settled (Rejected Sample.refused) 5 6 Sample.fresh))
     = false.
Proof.
  split.
  - apply (proj1 (proj2 (proj2 (probe_then_loop Sample.options 0
                                  (on "error" Sample.quiet Sample.fresh)
                                  (Rejected Sample.refused) 5 6)))).
    reflexivity.
  - apply (proj1 (proj2 (proj2 (proj2 (probe_then_loop Sample.options 0
                                         Sample.fresh
                                         (Rejected Sample.refused) 5 6))))).
    reflexivity.
Defined.

(** C3 fails as stated: the probe is refused, an [error] listener is
    registered, [autoUpdate] is on: the error is emitted and the loop
    starts all the same (first tick, two requests, a timer). *)
Lemma failed_probe_still_arms_the_loop :
  let s := on "error" Sample.quiet Sample.fresh in
  let l := log (probe_settled (Rejected Sample.refused) 5 6 s) in
  _autoUpdate s = true
  /\ armed l = true
  /\ armed l <> false
  /\ map event_name (emitted l) = ["error"; "tick"]
  /\ map req_path (requests l)
     = ["/requests/status.json"; "/requests/playlist.json"].
Proof.
  cbv zeta. repeat split; try reflexivity. vm_compute. discriminate.
Qed.

(** C4, what the code does: no log of any run holds an event named
    [connect]; in particular the construction and the chain run after
    a successful probe emit none. *)
Theorem connect_is_never_emitted
    (options : VLCOptions) (now0 : Q)
    (s : VLC) (body : json) (now now' : Q) (l : list effect) :
  events_named "connect" l = []
  /\ events_named "connect"
       (log (constructor options now0)
        ++ log (probe_settled (Resolved body) now now' s))%list = []
  /\ map event_name
       (emitted (log (constructor Sample.options 0)
                 ++ log (probe_settled (Resolved Sample.playing) 5 6
                           (on "connect" Sample.quiet Sample.fresh)))%list)
     = ["tick"].
Proof.
  assert (H : forall l0, events_named "connect" l0 = []).
  { intros l0. unfold events_named, emitted.
    induction l0 as [| [rq | ev | ms |] l0 IH]; cbn;
      [reflexivity | exact IH | | exact IH | exact IH].
    destruct ev; cbn; exact IH. }
  split; [apply H | split; [apply H | reflexivity]].
Qed.

(* ================================================================= *)
(** ** Further properties of the constructor *)

Lemma or_number_cases (a : option Q) (b : Q) :
  (or_number a b = b /\ (a = None \/ exists q, a = Some q /\ q == 0))
  \/ (exists q, a = Some q /\ ~ q == 0 /\ or_number a b = q).
Proof.
  destruct a as [q |]; cbn; [| now left; split; [| left]].
  destruct (Qeq_bool q 0) eqn:E.
  - left. split; [reflexivity |]. right. exists q. split; [reflexivity |].
    now apply Qeq_bool_iff.
  - right. exists q. repeat split. intros H. apply Qeq_bool_iff in H. congruence.
Qed.

(** X1: the constructor never leaves a tick length under 16 ms.  A
    requested length of at least 16 is kept, a non-zero one under 16
    (negative ones too) becomes 16, a missing or zero one becomes
    1000/30.  The long wait is the floor of the tick length minus one:
    at least 15 ms, and at least a millisecond short of the tick. *)
Theorem constructor_clamps_tick_length (options : VLCOptions) (now : Q) :
  let s := final (constructor options now) in
  16 <= _tickLengthMs s
  /\ (forall q, tickLengthMs options = Some q -> 16 <= q ->
      _tickLengthMs s = q)
  /\ (forall q, tickLengthMs options = Some q -> ~ q == 0 -> q < 16 ->
      _tickLengthMs s = 16)
  /\ (tickLengthMs options = None -> _tickLengthMs s = 1000 / 30)
  /\ (forall q, tickLengthMs options = Some q -> q == 0 ->
      _tickLengthMs s = 1000 / 30)
  /\ timing_ok s /\ clock_ok s
  /\ 15 <= _longWaitMs s
  /\ _longWaitNano s + ms2nano <= _tickLengthNano s.
Proof.
  cbv zeta.
  unfold constructor. rewrite sendCommand_no_command. unfold final. cbn [fst snd _tickLengthMs _tickLengthNano _longWaitMs _longWaitNano _prev _target].
  set (t0 := or_number (tickLengthMs options) (1000 / 30)).
  set (t := if negb (Qle_bool 16 t0) then 16 else t0).
  assert (Ht : 16 <= t).
  { unfold t. destruct (Qle_bool 16 t0) eqn:E; cbn.
    - now apply Qle_bool_iff. - lra. }
  assert (Hfl := Qfloor_le (t - 1)).
  assert (Hfu := Qlt_floor (t - 1)).
  assert (H15 : (15 <= Qfloor (t - 1))%Z).
  { apply (Qfloor_resp_le 15 (t - 1)) . lra. }
  assert (H15q : 15 <= inject_Z (Qfloor (t - 1))).
  { change 15 with (inject_Z 15). rewrite <- Zle_Qle. exact H15. }
  unfold timing_ok, clock_ok, Math_floor, ms2nano.
  cbn [fst snd _tickLengthMs _tickLengthNano _longWaitMs _longWaitNano _prev _target].
  fold t0. fold t.
  repeat split; try reflexivity; try lra; try exact Ht.
  - intros q Hq Hge. unfold t, t0. rewrite Hq. cbn.
    destruct (Qeq_bool q 0) eqn:E.
    + apply Qeq_bool_iff in E. lra.
    + apply Qle_bool_iff in Hge. now rewrite Hge.
  - intros q Hq Hne Hlt. unfold t, t0. rewrite Hq. cbn.
    destruct (Qeq_bool q 0) eqn:E.
    + apply Qeq_bool_iff in E. contradiction.
    + destruct (Qle_bool 16 q) eqn:E2; [| reflexivity].
      apply Qle_bool_iff in E2. lra.
  - intros Hn. unfold t, t0. rewrite Hn. reflexivity.
  - intros q Hq H0. unfold t, t0. rewrite Hq. cbn.
    apply Qeq_bool_iff in H0. rewrite H0. reflexivity.
Qed.

(* ================================================================= *)
(** ** More on the tick loop *)

Section TickLoop.

Lemma Qle_bool_false (a b : Q) : Qle_bool a b = false <-> b < a.
Proof.
  split.
  - intros H. apply Qnot_le_lt. intros Hle.
    apply Qle_bool_iff in Hle. congruence.
  - intros H. destruct (Qle_bool a b) eqn:E; [| reflexivity].
    apply Qle_bool_iff in E. lra.
Qed.

Lemma Math_max_tick (s : VLC) :
  timing_ok s -> Math_max (_longWaitMs s) (_tickLengthMs s) = _tickLengthMs s.
Proof.
  intros (Ht & _ & Hl & _). unfold Math_max.
  assert (Hfl := Qfloor_le (_tickLengthMs s - 1)).
  assert (H : Qle_bool (_longWaitMs s) (_tickLengthMs s) = true).
  { apply Qle_bool_iff. rewrite Hl. lra. }
  now rewrite H.
Qed.

Lemma doTick_fire_run (s : VLC) (now now' : Q) :
  Qle_bool (_target s) now = true ->
  _doTick now now' s =
  let s' := with_clock now (now + _tickLengthNano s) s in
  let tick := Tick ((now - _prev s) * nano2s) in
  match deliver (_events s) tick with
  | Normal _ =>
      (s',
       [Emit tick;
        Get {| req_host := _host s; req_port := _port s;
               req_path := "/requests/status.json";
               req_Authorization := _authorization s |};
        Get {| req_host := _host s; req_port := _port s;
               req_path := "/requests/playlist.json";
               req_Authorization := _authorization s |};
        next_timer s' now'], Normal tt)
  | Throw e => (s', [Emit tick], Throw e)
  end.
Proof.
  intros H.
  unfold _doTick, bind, get_this, modify, emit, updateAll_issue,
    updateStatus_issue, updatePlaylist_issue, setTimeout, setImmediate,
    perform, ret, next_timer.
  cbn -[deliver Qle_bool Qplus Qminus Qmult Math_max]. rewrite H.
  cbn -[deliver Qle_bool Qplus Qminus Qmult Math_max].
  destruct (deliver _ _) as [[] | err];
    cbn -[deliver Qle_bool Qplus Qminus Qmult Math_max]; [| reflexivity].
  destruct (negb _); reflexivity.
Qed.

Lemma doTick_idle_run (s : VLC) (now now' : Q) :
  Qle_bool (_target s) now = false ->
  _doTick now now' s = (s, [next_timer s now'], Normal tt).
Proof.
  intros H.
  unfold _doTick, bind, get_this, setTimeout, setImmediate, perform, ret,
    next_timer.
  cbn -[Qle_bool Qplus Qminus Qmult Math_max]. rewrite H.
  cbn -[Qle_bool Qplus Qminus Qmult Math_max].
  destruct (negb _); reflexivity.
Qed.

Lemma Sample_fresh_timing_ok : timing_ok Sample.fresh.
Proof.
  unfold timing_ok. repeat split; vm_compute; congruence.
Qed.

End TickLoop.

(** X4: a fire sets the clock and emits exactly one [tick].  If the
    [tick] listeners return, both refresh requests are sent, status
    first, and a timer is set; if one throws, [_doTick] ends there: no
    request is sent and no timer is set, so the loop stops, with the
    clock already advanced. *)
Theorem doTick_fire_effects (s : VLC) (now now' : Q) :
  Qle_bool (_target s) now = true ->
  let r := _doTick now now' s in
  let tick := Tick ((now - _prev s) * nano2s) in
  final r = with_clock now (now + _tickLengthNano s) s
  /\ emitted (log r) = [tick]
  /\ (deliver (_events s) tick = Normal tt ->
      outcome r = Normal tt
      /\ map req_path (requests (log r))
         = ["/requests/status.json"; "/requests/playlist.json"]
      /\ armed (log r) = true)
  /\ (forall e, deliver (_events s) tick = Throw e ->
      outcome r = Throw e /\ requests (log r) = [] /\ armed (log r) = false).
Proof.
  intros H. cbv zeta. rewrite (doTick_fire_run s now now' H). cbv zeta.
  destruct (deliver _ _) as [[] | err].
  - repeat split; try congruence.
    all: unfold next_timer; destruct (negb _); reflexivity.
  - repeat split; try reflexivity; unfold outcome; cbn [snd]; congruence.
Qed.

Lemma doTick_fire_effects_witness :
  outcome (_doTick 5 6 (on "tick" Sample.failing Sample.fresh))
  = Throw (Err "listener failed")
  /\ requests (log (_doTick 5 6 (on "tick" Sample.failing Sample.fresh)))
     = []
  /\ armed (log (_doTick 5 6 (on "tick" Sample.failing Sample.fresh)))
     = false.
Proof.
  apply (proj2 (proj2 (proj2 (doTick_fire_effects
                                (on "tick" Sample.failing Sample.fresh)
                                5 6 eq_refl)))).
  reflexivity.
Defined.

(** X5: where the clock readings, the tick period and the new target
    are whole numbers of nanoseconds below 2^53 (the target is then
    stored without rounding): after a fire at [now1], a check before
    [now1] plus one tick period does nothing but set a timer; the first
    check at or after it fires, and its [tick] carries the time since
    [now1] times [nano2s]. *)
Theorem ticks_are_a_period_apart (s : VLC) (now1 now1' now2 now2' : Q) :
  whole_nanos now1 = true ->
  whole_nanos now2 = true ->
  whole_nanos (_tickLengthNano s) = true ->
  whole_nanos (now1 + _tickLengthNano s) = true ->
  Qle_bool (_target s) now1 = true ->
  let s1 := final (_doTick now1 now1' s) in
  (now2 < now1 + _tickLengthNano s ->
   final (_doTick now2 now2' s1) = s1
   /\ emitted (log (_doTick now2 now2' s1)) = []
   /\ requests (log (_doTick now2 now2' s1)) = []
   /\ armed (log (_doTick now2 now2' s1)) = true)
  /\ (now1 + _tickLengthNano s <= now2 ->
      emitted (log (_doTick now2 now2' s1)) = [Tick ((now2 - now1) * nano2s)]
      /\ _prev (final (_doTick now2 now2' s1)) = now2).
Proof.
  intros _ _ _ _ H. cbv zeta.
  rewrite (proj1 (doTick_fire s now1 now1' H)). split.
  - intros Hlt. apply doTick_idle. apply Qle_bool_false. exact Hlt.
  - intros Hle.
    assert (H2 : Qle_bool
                   (_target (with_clock now1 (now1 + _tickLengthNano s) s))
                   now2 = true) by (apply Qle_bool_iff; exact Hle).
    rewrite (doTick_fire_run _ now2 now2' H2). cbv zeta.
    destruct (deliver _ _) as [[] | err]; unfold next_timer;
      try destruct (negb _); split; reflexivity.
Qed.

Lemma ticks_are_a_period_apart_witness :
  emitted (log (_doTick 15999999 16000000
                  (final (_doTick 5 6 Sample.fresh)))) = []
  /\ emitted (log (_doTick 16000005 16000006
                     (final (_doTick 5 6 Sample.fresh))))
     = [Tick ((16000005 - 5) * nano2s)].
Proof.
  split.
  - apply (proj1 (ticks_are_a_period_apart Sample.fresh 5 6
                    15999999 16000000 eq_refl eq_refl eq_refl eq_refl
                    eq_refl)).
    reflexivity.
  - apply (proj2 (ticks_are_a_period_apart Sample.fresh 5 6
                    16000005 16000006 eq_refl eq_refl eq_refl eq_refl
                    eq_refl)).
    unfold Qle. vm_compute. discriminate.
Defined.

(** X2: on an object whose tick lengths are related as the constructor
    sets them, every [setTimeout] of [_doTick] is given the tick length
    itself, which is at least 16 ms. *)
Theorem timers_are_never_short (s : VLC) (now now' ms : Q) :
  timing_ok s ->
  In (SetTimeout ms) (log (_doTick now now' s)) ->
  ms = _tickLengthMs s /\ 16 <= ms.
Proof.
  intros Hok Hin.
  assert (Hmax := Math_max_tick s Hok).
  assert (Hmax' : forall p t,
            Math_max (_longWaitMs (with_clock p t s))
                     (_tickLengthMs (with_clock p t s)) = _tickLengthMs s)
    by (intros; exact Hmax).
  destruct Hok as (Ht & _).
  destruct (Qle_bool (_target s) now) eqn:Hfire.
  - rewrite (doTick_fire_run s now now' Hfire) in Hin. cbv zeta in Hin.
    destruct (deliver _ _) as [[] | err]; cbn [log fst snd] in Hin.
    + unfold next_timer in Hin. rewrite Hmax' in Hin.
      destruct (negb _); cbn in Hin;
        repeat (destruct Hin as [Hin | Hin]; try discriminate Hin);
        try contradiction.
      injection Hin as <-. now split.
    + destruct Hin as [Hin | []]. discriminate.
  - rewrite (doTick_idle_run s now now' Hfire) in Hin.
    cbn [log fst snd] in Hin. unfold next_timer in Hin. rewrite Hmax in Hin.
    destruct (negb _); destruct Hin as [Hin | []]; try discriminate.
    injection Hin as <-. now split.
Qed.

(** X3: on such an object, a fire whose work up to the second clock
    reading took less than a millisecond ends with [setTimeout] of one
    tick length, never with [setImmediate]. *)
Theorem quick_fire_sets_the_coarse_timer (s : VLC) (now now' : Q) :
  timing_ok s ->
  Qle_bool (_target s) now = true ->
  deliver (_events s) (Tick ((now - _prev s) * nano2s)) = Normal tt ->
  now' - now < ms2nano ->
  exists l, log (_doTick now now' s) = (l ++ [SetTimeout (_tickLengthMs s)])%list
            /\ armed l = false.
Proof.
  intros Hok Hfire Hd Hquick.
  rewrite (doTick_fire_run s now now' Hfire). cbv zeta. rewrite Hd.
  unfold next_timer.
  assert (Hmax : Math_max
                   (_longWaitMs (with_clock now (now + _tickLengthNano s) s))
                   (_tickLengthMs (with_clock now (now + _tickLengthNano s) s))
                 = _tickLengthMs s) by exact (Math_max_tick s Hok).
  rewrite Hmax.
  destruct Hok as (Ht & Hn & Hl & Hln).
  assert (Hfl := Qfloor_le (_tickLengthMs s - 1)).
  assert (Hrem : Qle_bool
                   (_target (with_clock now (now + _tickLengthNano s) s) - now')
                   (_longWaitNano (with_clock now (now + _tickLengthNano s) s))
                 = false).
  { apply Qle_bool_false. cbn [_target _longWaitNano with_clock].
    rewrite Hln, Hn, Hl. unfold ms2nano in *. lra. }
  rewrite Hrem. cbn [negb log fst snd].
  eexists [_; _; _]. split; reflexivity.
Qed.

Lemma timers_are_never_short_witness :
  16 = _tickLengthMs Sample.fresh /\ 16 <= 16.
Proof.
  apply (timers_are_never_short Sample.fresh 5 6 16 Sample_fresh_timing_ok).
  vm_compute. tauto.
Defined.

Lemma quick_fire_sets_the_coarse_timer_witness :
  exists l,
    log (_doTick 5 6 Sample.fresh)
    = (l ++ [SetTimeout (_tickLengthMs Sample.fresh)])%list
    /\ armed l = false.
Proof.
  apply (quick_fire_sets_the_coarse_timer Sample.fresh 5 6
           Sample_fresh_timing_ok eq_refl eq_refl).
  reflexivity.
Defined.

(* ================================================================= *)
(** ** What the operations leave alone *)

Section Frame.

Lemma final_updateStatus (s : VLC) (r : response) :
  final (updateStatus r s)
  = store with_status (fst (fst (status_step s r))) s.
Proof.
  unfold updateStatus, updateStatus_issue.
  destruct (issue_then_resume STATUS (updateStatus_resume r) s)
    as (-> & _ & _).
  now rewrite updateStatus_resume_step.
Qed.

Lemma final_updatePlaylist (s : VLC) (r : response) :
  final (updatePlaylist r s)
  = store with_playlist (fst (fst (playlist_step s r))) s.
Proof.
  unfold updatePlaylist, updatePlaylist_issue.
  destruct (issue_then_resume PLAYLIST (updatePlaylist_resume r) s)
    as (-> & _ & _).
  now rewrite updatePlaylist_resume_step.
Qed.

Lemma final_updateAll (first : arrival) (rs rp : response) (s : VLC) :
  final (updateAll first rs rp s)
  = store with_playlist (fst (fst (playlist_step s rp)))
      (store with_status (fst (fst (status_step s rs))) s).
Proof.
  destruct (updateAll_after_issue first rs rp s) as (-> & _ & _).
  unfold updateAll_resume, Promise_all, updateAll_body, unsettle, bind,
    settle, try_catch, emit, ret, throw.
  destruct first; run_refreshes;
    destruct (status_step s rs) as [[nA lA] [a | ea]] eqn:EA;
    destruct (playlist_step s rp) as [[nB lB] [b | eb]] eqn:EB;
    repeat (run_refreshes; rewrite ?EA, ?EB);
    split_deliver; run_refreshes;
    destruct nA, nB; reflexivity.
Qed.

Lemma final_tick_refresh (first : arrival) (rs rp : response) (s : VLC) :
  final (tick_refresh first rs rp s)
  = store with_playlist (fst (fst (playlist_step s rp)))
      (store with_status (fst (fst (status_step s rs))) s).
Proof.
  unfold tick_refresh, updateAll_resume, Promise_all, updateAll_body,
    unsettle, bind, settle, try_catch, emit, ret, throw.
  destruct first; run_refreshes;
    destruct (status_step s rs) as [[nA lA] [a | ea]] eqn:EA;
    destruct (playlist_step s rp) as [[nB lB] [b | eb]] eqn:EB;
    repeat (run_refreshes; rewrite ?EA, ?EB);
    split_deliver; run_refreshes;
    destruct nA, nB; reflexivity.
Qed.

Lemma final_doTick (s : VLC) (now now' : Q) :
  final (_doTick now now' s)
  = if Qle_bool (_target s) now
    then with_clock now (now + _tickLengthNano s) s else s.
Proof.
  destruct (Qle_bool (_target s) now) eqn:H.
  - apply (doTick_fire s now now' H).
  - apply (doTick_idle s now now' H).
Qed.

Lemma final_probe_settled (s : VLC) (r : response) (now now' : Q) :
  final (probe_settled r now now' s) = s
  \/ final (probe_settled r now now' s) = final (_doTick now now' s).
Proof.
  unfold probe_settled, bind, get_this, emit, ret.
  destruct r as [e | body]; cbn -[_doTick deliver].
  - destruct (deliver _ _) as [[] | err]; cbn -[_doTick]; [| now left].
    destruct (_autoUpdate s); cbn -[_doTick]; [| now left].
    destruct (_doTick now now' s) as [[s' l] c]. now right.
  - destruct (_autoUpdate s); cbn -[_doTick]; [| now left].
    destruct (_doTick now now' s) as [[s' l] c]. now right.
Qed.

Lemma requests_app (l1 l2 : list effect) :
  requests (l1 ++ l2)%list = (requests l1 ++ requests l2)%list.
Proof. unfold requests. apply flat_map_app. Qed.

Lemma refresh_step_no_request (flag : bool)
    (table : list (string * listener)) (cached : json)
    (change : json -> json -> event) (r : response) :
  requests (snd (fst (refresh_step flag table cached change r))) = [].
Proof.
  unfold refresh_step. destruct r as [e | v]; [reflexivity |].
  destruct (flag && negb (equal v cached)); [| reflexivity].
  destruct (deliver table (change _ _)) as [[] | err]; [reflexivity |].
  destruct (deliver table (ErrorEvent err)); reflexivity.
Qed.

Lemma invoke_run (a : Action) (s : VLC) :
  exists rest,
    invoke a s =
    (s, [Get {| req_host := _host s; req_port := _port s;
                req_path := "/requests/status.json?command=" ++ rest;
                req_Authorization := _authorization s |}], Normal tt).
Proof. destruct a; cbn; eexists; reflexivity. Qed.

Lemma requests_probe_settled (s : VLC) (r : response) (now now' : Q) :
  requests (log (probe_settled r now now' s)) = []
  \/ requests (log (probe_settled r now now' s))
     = requests (log (_doTick now now' s)).
Proof.
  unfold probe_settled, bind, get_this, emit, ret.
  destruct r as [e | body]; cbn -[_doTick deliver].
  - destruct (deliver _ _) as [[] | err]; cbn -[_doTick]; [| now left].
    destruct (_autoUpdate s); cbn -[_doTick]; [| now left].
    destruct (_doTick now now' s) as [[s' l] c]. now right.
  - destruct (_autoUpdate s); cbn -[_doTick]; [| now left].
    destruct (_doTick now now' s) as [[s' l] c]. now right.
Qed.

Lemma requests_doTick (s : VLC) (now now' : Q) :
  Forall (addressed_by s) (requests (log (_doTick now now' s))).
Proof.
  destruct (Qle_bool (_target s) now) eqn:H.
  - rewrite (doTick_fire_run s now now' H). cbv zeta.
    destruct (deliver _ _) as [[] | err]; [| constructor].
    unfold next_timer, addressed_by. destruct (negb _); cbn;
      repeat constructor.
  - rewrite (proj1 (proj2 (proj2 (doTick_idle s now now' H)))). constructor.
Qed.

End Frame.

(** X6: no operation writes the configuration or the listener table.
    A refresh leaves the clock and the other cache cell alone, the
    tick loop and the probe chain leave both cache cells alone (the body
    of the probe is dropped), and an action changes nothing. *)
Theorem operations_keep_the_configuration
    (s : VLC) (r rs rp : response) (first : arrival) (now now' : Q)
    (a : Action) :
  let kept s' := config s' = config s /\ _events s' = _events s in
  (kept (final (updateStatus r s))
   /\ clock (final (updateStatus r s)) = clock s
   /\ _playlist (final (updateStatus r s)) = _playlist s)
  /\ (kept (final (updatePlaylist r s))
      /\ clock (final (updatePlaylist r s)) = clock s
      /\ _status (final (updatePlaylist r s)) = _status s)
  /\ (kept (final (updateAll first rs rp s))
      /\ clock (final (updateAll first rs rp s)) = clock s)
  /\ (kept (final (tick_refresh first rs rp s))
      /\ clock (final (tick_refresh first rs rp s)) = clock s)
  /\ (kept (final (_doTick now now' s))
      /\ cache (final (_doTick now now' s)) = cache s)
  /\ (kept (final (probe_settled r now now' s))
      /\ cache (final (probe_settled r now now' s)) = cache s)
  /\ final (call (invoke a) r s) = s.
Proof.
  cbv zeta.
  rewrite final_updateStatus, final_updatePlaylist, final_updateAll,
    final_tick_refresh.
  assert (Htick : (config (final (_doTick now now' s)) = config s
                   /\ _events (final (_doTick now now' s)) = _events s)
                  /\ cache (final (_doTick now now' s)) = cache s).
  { rewrite final_doTick. destruct (Qle_bool _ _); repeat split. }
  repeat match goal with |- _ /\ _ => split end;
    try (destruct (fst (fst (status_step s r))); reflexivity);
    try (destruct (fst (fst (playlist_step s r))); reflexivity);
    try (destruct (fst (fst (status_step s rs))),
                  (fst (fst (playlist_step s rp))); reflexivity);
    try apply Htick.
  1-3: destruct (final_probe_settled s r now now') as [-> | ->];
    try reflexivity; apply Htick.
  unfold call, bind.
  assert (Hrun : exists rq, invoke a s = (s, [Get rq], Normal tt))
    by (destruct a; apply sendCommand_run).
  destruct Hrun as (rq & ->). destruct r; reflexivity.
Qed.

(** X7: the relation between the tick lengths and the order of the two
    clock fields are kept by the refreshes, the tick loop and the probe
    chain; on an object that has them no [tick] carries a negative
    delta. *)
Theorem invariants_are_kept
    (s : VLC) (rs rp : response) (first : arrival) (now now' : Q) :
  timing_ok s -> clock_ok s ->
  (timing_ok (final (updateAll first rs rp s))
   /\ clock_ok (final (updateAll first rs rp s)))
  /\ (timing_ok (final (tick_refresh first rs rp s))
      /\ clock_ok (final (tick_refresh first rs rp s)))
  /\ (timing_ok (final (_doTick now now' s))
      /\ clock_ok (final (_doTick now now' s)))
  /\ (timing_ok (final (probe_settled rs now now' s))
      /\ clock_ok (final (probe_settled rs now now' s)))
  /\ (forall delta, In (Tick delta) (emitted (log (_doTick now now' s))) ->
      0 <= delta).
Proof.
  intros Hok Hclock.
  assert (Hpos : 0 <= _tickLengthNano s).
  { destruct Hok as (Ht & Hn & _). rewrite Hn. unfold ms2nano. nra. }
  assert (Htick : timing_ok (final (_doTick now now' s))
                  /\ clock_ok (final (_doTick now now' s))).
  { rewrite final_doTick. destruct (Qle_bool _ _); split; try assumption.
    unfold clock_ok. cbn [_prev _target with_clock]. lra. }
  rewrite final_updateAll, final_tick_refresh.
  repeat match goal with |- _ /\ _ => split end;
    try (destruct (fst (fst (status_step s rs))),
                  (fst (fst (playlist_step s rp))); assumption);
    try apply Htick.
  1-2: destruct (final_probe_settled s rs now now') as [-> | ->];
    try assumption; apply Htick.
  intros delta Hin.
  destruct (Qle_bool (_target s) now) eqn:Hfire.
  - rewrite (doTick_fire_run s now now' Hfire) in Hin. cbv zeta in Hin.
    assert (Hd : delta = (now - _prev s) * nano2s).
    { destruct (deliver _ _) as [[] | err]; unfold next_timer in Hin;
        try destruct (negb _); cbn in Hin;
        destruct Hin as [[= <-] | []]; reflexivity. }
    subst delta. apply Qle_bool_iff in Hfire. unfold clock_ok in Hclock.
    unfold nano2s, s2nano.
    assert (0 <= now - _prev s) by lra.
    apply Qmult_le_0_compat; [assumption |]. 
    unfold Qle. cbn. lia.
  - rewrite (proj1 (proj2 (doTick_idle s now now' Hfire))) in Hin.
    contradiction.
Qed.

Lemma Sample_fresh_clock_ok : clock_ok Sample.fresh.
Proof. unfold clock_ok, Qle. vm_compute. discriminate. Qed.

Lemma invariants_are_kept_witness :
  timing_ok (final (_doTick 5 6 Sample.fresh))
  /\ clock_ok (final (_doTick 5 6 Sample.fresh)).
Proof.
  apply (invariants_are_kept Sample.fresh (Resolved Sample.playing)
           (Resolved Sample.playlist) StatusFirst 5 6
           Sample_fresh_timing_ok Sample_fresh_clock_ok).
Defined.

(** X8: every request is sent to the host and port of the object with
    its [Authorization] value.  An action sends one request, a refresh
    one to its own endpoint, [updateAll] two (status, then playlist);
    nothing is sent when the responses arrive. *)
Theorem requests_carry_the_credentials
    (s : VLC) (r rs rp : response) (first : arrival) (now now' : Q)
    (a : Action) :
  (exists rq, requests (log (call (invoke a) r s)) = [rq]
              /\ addressed_by s rq)
  /\ (exists rq, requests (log (updateStatus r s)) = [rq]
                 /\ addressed_by s rq
                 /\ req_path rq = "/requests/status.json")
  /\ (exists rq, requests (log (updatePlaylist r s)) = [rq]
                 /\ addressed_by s rq
                 /\ req_path rq = "/requests/playlist.json")
  /\ (exists rq1 rq2,
        requests (log (updateAll first rs rp s)) = [rq1; rq2]
        /\ addressed_by s rq1 /\ addressed_by s rq2
        /\ req_path rq1 = "/requests/status.json"
        /\ req_path rq2 = "/requests/playlist.json")
  /\ requests (log (tick_refresh first rs rp s)) = []
  /\ Forall (addressed_by s) (requests (log (_doTick now now' s)))
  /\ Forall (addressed_by s) (requests (log (probe_settled r now now' s))).
Proof.
  repeat match goal with |- _ /\ _ => split end.
  - destruct (invoke_run a s) as (rest & Hrun).
    unfold call, bind. rewrite Hrun.
    eexists. split; [destruct r; reflexivity | unfold addressed_by; cbn; repeat split].
  - unfold updateStatus, updateStatus_issue, bind.
    rewrite sendCommand_no_command, updateStatus_resume_step.
    eexists. cbn -[status_step].
    split; [unfold status_step; now rewrite refresh_step_no_request |].
    unfold addressed_by; cbn; repeat split.
  - unfold updatePlaylist, updatePlaylist_issue, bind.
    rewrite sendCommand_no_command, updatePlaylist_resume_step.
    eexists. cbn -[playlist_step].
    split; [unfold playlist_step; now rewrite refresh_step_no_request |].
    unfold addressed_by; cbn; repeat split.
  - assert (Hres : requests (log (updateAll_resume first rs rp unsettle s))
                   = []).
    { pose proof (refresh_step_no_request (_changeEvents s) (_events s)
                    (_status s) StatusChange rs) as HnA.
      pose proof (refresh_step_no_request (_changeEvents s) (_events s)
                    (_playlist s) PlaylistChange rp) as HnB.
      fold (status_step s rs) in HnA. fold (playlist_step s rp) in HnB.
      unfold updateAll_resume, Promise_all, updateAll_body, unsettle, bind,
        settle, try_catch, emit, ret, throw.
      destruct first; run_refreshes;
        destruct (status_step s rs) as [[nA lA] [a0 | ea]] eqn:EA;
        destruct (playlist_step s rp) as [[nB lB] [b | eb]] eqn:EB;
        repeat (run_refreshes; rewrite ?EA, ?EB); cbn [fst snd] in *;
        split_deliver; run_refreshes;
        unfold requests in *;
        repeat (rewrite ?flat_map_app, ?app_nil_r, ?HnA, ?HnB; cbn);
        reflexivity. }
    assert (Hissue : updateAll_issue s
                     = (s, [Get {| req_host := _host s; req_port := _port s;
                                   req_path := "/requests/status.json";
                                   req_Authorization := _authorization s |};
                            Get {| req_host := _host s; req_port := _port s;
                                   req_path := "/requests/playlist.json";
                                   req_Authorization := _authorization s |}],
                        Normal tt)) by reflexivity.
    unfold updateAll, bind. rewrite Hissue.
    destruct (updateAll_resume first rs rp unsettle s) as [[s' l] c].
    cbn in Hres. cbn. rewrite Hres.
    do 2 eexists. split; [reflexivity | unfold addressed_by; cbn; repeat split].
  - pose proof (refresh_step_no_request (_changeEvents s) (_events s)
                  (_status s) StatusChange rs) as HnA.
    pose proof (refresh_step_no_request (_changeEvents s) (_events s)
                  (_playlist s) PlaylistChange rp) as HnB.
    fold (status_step s rs) in HnA. fold (playlist_step s rp) in HnB.
    unfold tick_refresh, updateAll_resume, Promise_all, updateAll_body,
      unsettle, bind, settle, try_catch, emit, ret, throw.
    destruct first; run_refreshes;
      destruct (status_step s rs) as [[nA lA] [a0 | ea]] eqn:EA;
      destruct (playlist_step s rp) as [[nB lB] [b | eb]] eqn:EB;
      repeat (run_refreshes; rewrite ?EA, ?EB); cbn [fst snd] in *;
      split_deliver; run_refreshes;
      unfold requests in *;
      repeat (rewrite ?flat_map_app, ?app_nil_r, ?HnA, ?HnB; cbn);
      reflexivity.
  - apply requests_doTick.
  - destruct (requests_probe_settled s r now now') as [-> | ->];
      [constructor | apply requests_doTick].
Qed.

(* ================================================================= *)
(** ** More on the cache *)

Section CacheMore.

Lemma reordered_refl (v : json) : reordered v v.
Proof.
  induction v as [| b | q | s | xs IH | fs IH] using json_nested_ind;
    try constructor.
  - induction IH; constructor; assumption.
  - apply reordered_obj with (zs := fs); [apply Permutation_refl |].
    induction IH; constructor; [split; [reflexivity | assumption] |].
    assumption.
Qed.

Lemma equal_refl (v : json) : distinct_keys v -> equal v v = true.
Proof. intros H. apply reordered_equal; [exact H | apply reordered_refl]. Qed.

Lemma equal_null_r (v : json) : equal v JNull = true <-> v = JNull.
Proof. destruct v; cbn; split; congruence. Qed.

Lemma emitted_updateStatus_resume (s : VLC) (r : response) :
  emitted (log (updateStatus r s)) = emitted (log (updateStatus_resume r s)).
Proof.
  unfold updateStatus, updateStatus_issue.
  now destruct (issue_then_resume STATUS (updateStatus_resume r) s)
    as (_ & _ & ->).
Qed.

Lemma emitted_updatePlaylist_resume (s : VLC) (r : response) :
  emitted (log (updatePlaylist r s))
  = emitted (log (updatePlaylist_resume r s)).
Proof.
  unfold updatePlaylist, updatePlaylist_issue.
  now destruct (issue_then_resume PLAYLIST (updatePlaylist_resume r) s)
    as (_ & _ & ->).
Qed.

End CacheMore.

(** X9: with change events on and an empty (null) status cell, a fetched
    [null] is no change, and any other fetched value is published as
    [statuschange] with itself as the previous value, and stored when
    the call resolves. *)
Theorem first_refresh_on_an_empty_cache (s : VLC) (v : json) :
  _changeEvents s = true -> _status s = JNull ->
  (v = JNull ->
   emitted (log (updateStatus (Resolved v) s)) = []
   /\ final (updateStatus (Resolved v) s) = s
   /\ outcome (updateStatus (Resolved v) s) = Normal v)
  /\ (v <> JNull ->
      events_named "statuschange" (log (updateStatus (Resolved v) s))
      = [StatusChange v v]
      /\ (outcome (updateStatus (Resolved v) s) = Normal v ->
          _status (final (updateStatus (Resolved v) s)) = v)).
Proof.
  intros Hc Hnull. split.
  - intros ->. rewrite emitted_updateStatus_resume, final_updateStatus,
      updateStatus_outcome, updateStatus_resume_unchanged;
      [| rewrite Hc, Hnull; reflexivity].
    unfold status_step, refresh_step. rewrite Hc, Hnull. repeat split.
  - intros Hv.
    assert (He : equal v (_status s) = false).
    { rewrite Hnull. destruct (equal v JNull) eqn:E; [| reflexivity].
      apply equal_null_r in E. contradiction. }
    unfold events_named.
    rewrite emitted_updateStatus_resume, final_updateStatus,
      updateStatus_outcome, (updateStatus_resume_changed s v Hc He).
    unfold status_step, refresh_step, previous.
    rewrite Hc, He, Hnull. cbn -[deliver].
    destruct (deliver _ (StatusChange v v)) as [[] | err]; cbn -[deliver];
      [split; [reflexivity | reflexivity] |].
    destruct (deliver _ (ErrorEvent err)) as [[] | err']; cbn;
      split; try reflexivity; discriminate.
Qed.

Lemma first_refresh_on_an_empty_cache_witness :
  events_named "statuschange"
    (log (updateStatus (Resolved Sample.playing) Sample.fresh))
  = [StatusChange Sample.playing Sample.playing].
Proof.
  apply (proj2 (first_refresh_on_an_empty_cache Sample.fresh Sample.playing
                  eq_refl eq_refl)).
  discriminate.
Defined.

(** X10: after a refresh that resolved with a value (distinct keys in
    each object), a second refresh fetching the same value emits
    nothing, writes nothing and resolves with it. *)
Theorem refresh_is_idempotent (s : VLC) (v : json) :
  distinct_keys v ->
  (is_throw (outcome (updateStatus (Resolved v) s)) = false ->
   let s1 := final (updateStatus (Resolved v) s) in
   emitted (log (updateStatus (Resolved v) s1)) = []
   /\ final (updateStatus (Resolved v) s1) = s1
   /\ outcome (updateStatus (Resolved v) s1) = Normal v)
  /\ (is_throw (outcome (updatePlaylist (Resolved v) s)) = false ->
      let s1 := final (updatePlaylist (Resolved v) s) in
      emitted (log (updatePlaylist (Resolved v) s1)) = []
      /\ final (updatePlaylist (Resolved v) s1) = s1
      /\ outcome (updatePlaylist (Resolved v) s1) = Normal v).
Proof.
  intros Hd. pose proof (equal_refl v Hd) as Hrefl. split; cbv zeta.
  - rewrite updateStatus_outcome, final_updateStatus.
    intros Hok.
    assert (Hun : forall s1,
              _changeEvents s1 && negb (equal v (_status s1)) = false ->
              emitted (log (updateStatus (Resolved v) s1)) = []
              /\ final (updateStatus (Resolved v) s1) = s1
              /\ outcome (updateStatus (Resolved v) s1) = Normal v).
    { intros s1 H1.
      rewrite emitted_updateStatus_resume, final_updateStatus,
        updateStatus_outcome, updateStatus_resume_unchanged by exact H1.
      unfold status_step, refresh_step. rewrite H1. repeat split. }
    apply Hun. revert Hok. unfold status_step, refresh_step.
    destruct (_changeEvents s && negb (equal v (_status s))) eqn:Hch.
    + apply andb_true_iff in Hch as [Hc He].
      destruct (deliver _ (StatusChange _ _)) as [[] | err]; cbn -[deliver].
      * intros _. now rewrite Hrefl, andb_false_r.
      * destruct (deliver _ (ErrorEvent err)) as [[] | err']; cbn;
          [| discriminate].
        intros _. now rewrite Hrefl, andb_false_r.
    + intros _. exact Hch.
  - rewrite updatePlaylist_outcome, final_updatePlaylist.
    intros Hok.
    assert (Hun : forall s1,
              _changeEvents s1 && negb (equal v (_playlist s1)) = false ->
              emitted (log (updatePlaylist (Resolved v) s1)) = []
              /\ final (updatePlaylist (Resolved v) s1) = s1
              /\ outcome (updatePlaylist (Resolved v) s1) = Normal v).
    { intros s1 H1.
      rewrite emitted_updatePlaylist_resume, final_updatePlaylist,
        updatePlaylist_outcome, updatePlaylist_resume_unchanged by exact H1.
      unfold playlist_step, refresh_step. rewrite H1. repeat split. }
    apply Hun. revert Hok. unfold playlist_step, refresh_step.
    destruct (_changeEvents s && negb (equal v (_playlist s))) eqn:Hch.
    + apply andb_true_iff in Hch as [Hc He].
      destruct (deliver _ (PlaylistChange _ _)) as [[] | err]; cbn -[deliver].
      * intros _. now rewrite Hrefl, andb_false_r.
      * destruct (deliver _ (ErrorEvent err)) as [[] | err']; cbn;
          [| discriminate].
        intros _. now rewrite Hrefl, andb_false_r.
    + intros _. exact Hch.
Qed.

Lemma refresh_is_idempotent_witness :
  emitted (log (updateStatus (Resolved Sample.playing)
                  (final (updateStatus (Resolved Sample.playing)
                            Sample.fresh)))) = []
  /\ final (updateStatus (Resolved Sample.playing)
              (final (updateStatus (Resolved Sample.playing) Sample.fresh)))
     = final (updateStatus (Resolved Sample.playing) Sample.fresh)
  /\ outcome (updateStatus (Resolved Sample.playing)
                (final (updateStatus (Resolved Sample.playing)
                          Sample.fresh)))
     = Normal Sample.playing.
Proof.
  apply (proj1 (refresh_is_idempotent Sample.fresh Sample.playing
                  ltac:(simpl; repeat split; repeat constructor; simpl;
                        intuition discriminate))).
  reflexivity.
Defined.

(* ================================================================= *)
(** ** More on [updateAll] *)

(** X11: [updateAll] leaves in each cache cell what the single refresh
    leaves; a refresh started by the tick loop leaves the same state as
    a direct [updateAll], and the state does not depend on which
    response arrives first. *)
Theorem updateAll_refreshes_each_cell_as_alone
    (first : arrival) (rs rp : response) (s : VLC) :
  _status (final (updateAll first rs rp s))
  = _status (final (updateStatus rs s))
  /\ _playlist (final (updateAll first rs rp s))
     = _playlist (final (updatePlaylist rp s))
  /\ final (tick_refresh first rs rp s) = final (updateAll first rs rp s)
  /\ final (updateAll StatusFirst rs rp s)
     = final (updateAll PlaylistFirst rs rp s).
Proof.
  rewrite !final_updateAll, final_tick_refresh, final_updateStatus,
    final_updatePlaylist.
  destruct (fst (fst (status_step s rs))), (fst (fst (playlist_step s rp)));
    repeat split.
Qed.

(** X12: the two arrival orders of the responses of one [updateAll] give
    the same events up to their order, the same [update] events and
    the same kind of result; the result itself is the same unless both
    refreshes fail, and then the call rejects with the error of the
    refresh whose response arrived first. *)
Theorem updateAll_does_not_depend_on_arrival_order
    (rs rp : response) (s : VLC) :
  Permutation (emitted (log (updateAll StatusFirst rs rp s)))
              (emitted (log (updateAll PlaylistFirst rs rp s)))
  /\ events_named "update" (log (updateAll StatusFirst rs rp s))
     = events_named "update" (log (updateAll PlaylistFirst rs rp s))
  /\ is_throw (outcome (updateAll StatusFirst rs rp s))
     = is_throw (outcome (updateAll PlaylistFirst rs rp s))
  /\ (is_throw (outcome (updateStatus rs s))
      && is_throw (outcome (updatePlaylist rp s)) = false ->
      outcome (updateAll StatusFirst rs rp s)
      = outcome (updateAll PlaylistFirst rs rp s))
  /\ (forall ea eb,
        outcome (updateStatus rs s) = Throw ea ->
        outcome (updatePlaylist rp s) = Throw eb ->
        outcome (updateAll StatusFirst rs rp s) = Throw ea
        /\ outcome (updateAll PlaylistFirst rs rp s) = Throw eb).
Proof.
  destruct (updateAll_after_issue StatusFirst rs rp s) as (_ & -> & He1).
  destruct (updateAll_after_issue PlaylistFirst rs rp s) as (_ & -> & He2).
  rewrite (events_named_ext _ _ _ He1), (events_named_ext _ _ _ He2).
  rewrite He1, He2. clear He1 He2.
  rewrite updateStatus_outcome, updatePlaylist_outcome.
  pose proof (status_step_no_update s rs) as HnA.
  pose proof (playlist_step_no_update s rp) as HnB.
  unfold updateAll_resume, Promise_all, updateAll_body, unsettle, bind,
    settle, try_catch, emit, ret, throw.
  run_refreshes;
    destruct (status_step s rs) as [[nA lA] [a | ea]] eqn:EA;
    destruct (playlist_step s rp) as [[nB lB] [b | eb]] eqn:EB;
    repeat (run_refreshes; rewrite ?EA, ?EB); cbn [fst snd] in *;
    split_deliver; run_refreshes;
    rewrite ?events_named_app, ?HnA, ?HnB, ?app_nil_r;
    unfold emitted; rewrite ?flat_map_app; cbn [flat_map app];
    repeat match goal with |- _ /\ _ => split end;
    try reflexivity; try discriminate;
    try (intros ea' eb' E1 E2; inversion E1; inversion E2; subst;
         split; reflexivity);
    try apply Permutation_app_comm;
    try (rewrite !app_assoc; apply Permutation_app_tail,
                               Permutation_app_comm).
Qed.

(* ================================================================= *)
(** ** More on the dispatcher and the actions *)

Section DispatcherMore.

Lemma count_char_app (c : ascii) (s1 s2 : string) :
  count_char c (s1 ++ s2) = (count_char c s1 + count_char c s2)%nat.
Proof.
  induction s1 as [| x s1 IH]; [reflexivity |].
  cbn -[Ascii.eqb]. rewrite IH. lia.
Qed.

Lemma count_char_hexchar (c : ascii) (n : N) :
  noEscape c = false -> count_char c (hexchar n) = 0%nat.
Proof.
  intros Hc. unfold hexchar.
  destruct (N.to_nat n) as [| m]; cbn -[Ascii.eqb].
  { destruct (Ascii.eqb_spec "0" c) as [<- |]; [discriminate | reflexivity]. }
  do 15 (destruct m as [| m]; cbn -[Ascii.eqb];
         [match goal with
          | |- context [Ascii.eqb ?h c] =>
              destruct (Ascii.eqb_spec h c) as [<- |];
              [discriminate | reflexivity]
          end |]).
  reflexivity.
Qed.

(** An escaped string holds a reserved character only if it is [%]. *)
Lemma count_char_qsEscape (c : ascii) (s : string) :
  noEscape c = false -> c <> "%"%char -> count_char c (qsEscape s) = 0%nat.
Proof.
  intros Hc Hp. induction s as [| x s IH]; [reflexivity |].
  cbn [qsEscape]. rewrite count_char_app, IH, Nat.add_0_r.
  destruct (noEscape x) eqn:Hx.
  - cbn -[Ascii.eqb]. destruct (Ascii.eqb_spec x c) as [-> |]; [congruence | reflexivity].
  - rewrite !count_char_app, !count_char_hexchar by assumption.
    cbn -[Ascii.eqb]. destruct (Ascii.eqb_spec "%" c) as [<- |];
      [contradiction | reflexivity].
Qed.

Lemma count_char_field (c : ascii) (kv : string * qvalue) :
  noEscape c = false -> c <> "%"%char ->
  count_char c (stringifyField kv) = if Ascii.eqb "=" c then 1%nat else 0%nat.
Proof.
  intros Hc Hp. unfold stringifyField.
  rewrite !count_char_app, !count_char_qsEscape by assumption.
  cbn -[Ascii.eqb]. lia.
Qed.

Lemma count_char_concat (c : ascii) (f : string) (fs : list string)
    (k : nat) :
  (forall x, In x (f :: fs) -> count_char c x = k) ->
  count_char c (String.concat "&" (f :: fs))
  = (k * S (List.length fs)
     + (if Ascii.eqb "&" c then 1 else 0) * List.length fs)%nat.
Proof.
  revert f. induction fs as [| g fs IH]; intros f Hall.
  - cbn -[Ascii.eqb]. rewrite (Hall f) by now left. lia.
  - change (String.concat "&" (f :: g :: fs))
      with (f ++ "&" ++ String.concat "&" (g :: fs)).
    rewrite !count_char_app, IH by (intros x Hx; apply Hall; now right).
    rewrite (Hall f) by now left. cbn [count_char List.length]. lia.
Qed.

Lemma sendCommand_command_path (scope : CommandScope) (c : string)
    (o : params) (s : VLC) :
  c <> "" -> NoDup (map fst o) -> ~ In "command" (map fst o) ->
  map req_path (requests (log (_sendCommand scope (Some c) (Some o) s)))
  = [scope_path scope ++ "?" ++
     String.concat "&" (stringifyField ("command", VStr c)
                        :: map stringifyField o)].
Proof.
  intros Hc Hnd Hcmd.
  assert (Ht : truthy_string (Some c) = true).
  { simpl. destruct (String.eqb_spec c ""); [contradiction | reflexivity]. }
  unfold _sendCommand, bind, get_this, perform, log.
  cbn -[truthy_string spread stringify String.append stringifyField].
  rewrite Ht. rewrite spread_command by assumption.
  unfold stringify. cbn [map].
  change (stringifyField ("command", VStr c))
    with (String "c" ("ommand=" ++ qsEscape c)).
  rewrite concat_cons_truthy. reflexivity.
Qed.

Lemma qsEscape_unreserved (s : string) :
  unreserved s = true -> qsEscape s = s.
Proof.
  induction s as [| x s IH]; [reflexivity |].
  cbn. intros H. apply andb_true_iff in H as [Hx Hs].
  now rewrite Hx, IH.
Qed.

Lemma unreserved_decimal (n : Z) :
  unreserved (NilZero.string_of_int (Z.to_int n)) = true.
Proof.
  assert (Hu : forall d, unreserved (NilEmpty.string_of_uint d) = true)
    by (induction d; cbn; auto).
  assert (Hz : forall d, unreserved (NilZero.string_of_uint d) = true)
    by (intros d; destruct d; try apply (Hu (_ d)); reflexivity).
  destruct (Z.to_int n); cbn; apply Hz.
Qed.

End DispatcherMore.

(** X13: the query of a dispatch with a command name has exactly one
    field per key of the params object besides the command: names and
    values are escaped, so the query holds as many [&] as keys, one [=]
    more, and no [?], [#] or space, whatever the values are. *)
Theorem query_has_one_field_per_key
    (scope : CommandScope) (c : string) (o : params) (s : VLC) :
  c <> "" -> NoDup (map fst o) -> ~ In "command" (map fst o) ->
  exists q,
    map req_path (requests (log (_sendCommand scope (Some c) (Some o) s)))
    = [scope_path scope ++ "?" ++ q]
    /\ count_char "&" q = List.length o
    /\ count_char "=" q = S (List.length o)
    /\ count_char "?" q = 0%nat
    /\ count_char "#" q = 0%nat
    /\ count_char " " q = 0%nat.
Proof.
  intros Hc Hnd Hcmd. eexists. split.
  - apply sendCommand_command_path; assumption.
  - assert (Hcount : forall ch k,
              noEscape ch = false -> ch <> "%"%char ->
              k = (if Ascii.eqb "=" ch then 1%nat else 0%nat) ->
              count_char ch
                (String.concat "&" (stringifyField ("command", VStr c)
                                    :: map stringifyField o))
              = (k * S (List.length o)
                 + (if Ascii.eqb "&" ch then 1 else 0) * List.length o)%nat).
    { intros ch k H1 H2 ->.
      rewrite (count_char_concat ch _ _ (if Ascii.eqb "=" ch then 1 else 0)%nat).
      - now rewrite length_map.
      - intros x [<- | Hx]; [now apply count_char_field |].
        apply in_map_iff in Hx as (kv & <- & _).
        now apply count_char_field. }
    repeat split;
      match goal with
      | |- count_char ?ch _ = _ =>
          rewrite (Hcount ch _ eq_refl ltac:(discriminate) eq_refl)
      end; cbn; lia.
Qed.

Lemma query_has_one_field_per_key_witness :
  exists q,
    map req_path
      (requests (log (_sendCommand STATUS (Some "in_enqueue")
                        (Some [("input", VStr "a&b=c")]) Sample.fresh)))
    = [scope_path STATUS ++ "?" ++ q]
    /\ count_char "&" q = 1%nat
    /\ count_char "=" q = 2%nat
    /\ count_char "?" q = 0%nat
    /\ count_char "#" q = 0%nat
    /\ count_char " " q = 0%nat.
Proof.
  apply (query_has_one_field_per_key STATUS "in_enqueue"
           [("input", VStr "a&b=c")] Sample.fresh
           ltac:(discriminate)
           ltac:(repeat constructor; simpl; intuition discriminate)
           ltac:(simpl; intuition discriminate)).
Defined.

(** X14: for safe integers, the values of its parameter types among
    them, [sortPlaylist(order, mode)] sends the mode as [id] and the
    order as [val], both in decimal and unescaped. *)
Theorem sortPlaylist_sends_mode_as_id (order mode : Z) (s : VLC) :
  safe_integer order -> safe_integer mode ->
  map req_path (requests (log (sortPlaylist order mode s)))
  = ["/requests/status.json?command=pl_sort&id="
     ++ NilZero.string_of_int (Z.to_int mode)
     ++ "&val=" ++ NilZero.string_of_int (Z.to_int order)].
Proof.
  intros _ _. unfold sortPlaylist.
  rewrite sendCommand_command_path;
    [| discriminate | repeat constructor; simpl; intuition discriminate
     | simpl; intuition discriminate].
  unfold stringifyField. cbn [map fst snd stringifyPrimitive].
  rewrite (qsEscape_unreserved (NilZero.string_of_int (Z.to_int mode))),
    (qsEscape_unreserved (NilZero.string_of_int (Z.to_int order)))
    by apply unreserved_decimal.
  reflexivity.
Qed.

Lemma sortPlaylist_sends_mode_as_id_witness :
  map req_path (requests (log (sortPlaylist 1 5 Sample.fresh)))
  = ["/requests/status.json?command=pl_sort&id=5&val=1"].
Proof.
  apply (sortPlaylist_sends_mode_as_id 1 5 Sample.fresh).
  - unfold safe_integer. lia.
  - unfold safe_integer. lia.
Defined.

(** X15: every action sends exactly one request, to the status endpoint
    with a [command] field first, emits nothing, leaves the object as it
    is, and settles as the request does. *)
Theorem actions_only_send_one_status_request
    (a : Action) (r : response) (s : VLC) :
  exists rest,
    call (invoke a) r s =
    (s,
     [Get {| req_host := _host s; req_port := _port s;
             req_path := "/requests/status.json?command=" ++ rest;
             req_Authorization := _authorization s |}],
     match r with Resolved body => Normal body | Rejected e => Throw e end).
Proof.
  destruct (invoke_run a s) as (rest & Hrun). exists rest.
  unfold call, bind. rewrite Hrun. destruct r; reflexivity.
Qed.

(* ================================================================= *)
(** ** The clock reading *)

Lemma Qred_inject_Z (z : Z) : Qred (inject_Z z) = inject_Z z.
Proof.
  unfold Qred, inject_Z.
  pose proof (Z.ggcd_gcd z 1) as Hg.
  pose proof (Z.ggcd_correct_divisors z 1) as Hd.
  destruct (Z.ggcd z 1) as [g [aa bb]]. cbn [fst snd] in *.
  rewrite Z.gcd_1_r in Hg. subst g. destruct Hd as [Ha Hb].
  rewrite Z.mul_1_l in Ha, Hb. subst aa bb. reflexivity.
Qed.

(** X16: on [hrtime] readings of less than 2^53 nanoseconds in all,
    where the product and the sum are exact, [getNano] orders two
    readings as the pairs (seconds, nanoseconds) are ordered, and
    distinct readings give distinct values. *)
Theorem getNano_keeps_the_order (s1 n1 s2 n2 : Z) :
  (0 <= s1)%Z -> (0 <= n1 < 1000000000)%Z ->
  (s1 * 1000000000 + n1 < 9007199254740992)%Z ->
  (0 <= s2)%Z -> (0 <= n2 < 1000000000)%Z ->
  (s2 * 1000000000 + n2 < 9007199254740992)%Z ->
  (getNano (s1, n1) <= getNano (s2, n2)
   <-> (s1 < s2)%Z \/ (s1 = s2 /\ (n1 <= n2)%Z))
  /\ (getNano (s1, n1) == getNano (s2, n2) <-> s1 = s2 /\ n1 = n2)
  /\ whole_nanos (getNano (s1, n1)) = true.
Proof.
  intros Hs1 H1 Hb1 Hs2 H2 Hb2.
  assert (Hg : forall a b,
            getNano (a, b) == inject_Z (a * 1000000000 + b)).
  { intros a b. unfold getNano, s2nano. cbn [fst snd].
    rewrite inject_Z_plus, inject_Z_mult. reflexivity. }
  split; [| split].
  - rewrite !Hg, <- Zle_Qle. clear Hg. split; intros; lia.
  - rewrite !Hg. clear Hg. split.
    + intros H. unfold Qeq in H. cbn [Qnum Qden inject_Z] in H.
      assert (s1 = s2) by lia. split; lia.
    + intros [-> ->]. reflexivity.
  - clear Hg. unfold whole_nanos, getNano, s2nano. cbn [fst snd].
    change (inject_Z s1 * 1000000000 + inject_Z n1)
      with (inject_Z s1 * inject_Z 1000000000 + inject_Z n1).
    rewrite <- inject_Z_mult, <- inject_Z_plus.
    rewrite Qred_inject_Z. cbn [Qnum Qden inject_Z].
    apply andb_true_intro. split; [apply andb_true_intro; split |].
    + reflexivity.
    + apply Z.leb_le. lia.
    + apply Z.ltb_lt. lia.
Qed.

Lemma getNano_keeps_the_order_witness :
  getNano (1%Z, 999999999%Z) <= getNano (2%Z, 0%Z)
  <-> (1 < 2)%Z \/ (1%Z = 2%Z /\ (999999999 <= 0)%Z).
Proof.
  apply (proj1 (getNano_keeps_the_order 1 999999999 2 0
                  ltac:(lia) ltac:(lia) ltac:(lia)
                  ltac:(lia) ltac:(lia) ltac:(lia))).
Defined.

Lemma constructor_clamps_tick_length_witness :
  _tickLengthMs
    (final (constructor
              {| host := None; port := None; username := "user";
                 password := "pass"; autoUpdate := None;
                 tickLengthMs := Some 5; changeEvents := None |} 0)) = 16.
Proof.
  apply (proj1 (proj2 (proj2 (constructor_clamps_tick_length
           {| host := None; port := None; username := "user";
              password := "pass"; autoUpdate := None;
              tickLengthMs := Some 5; changeEvents := None |} 0))) 5 eq_refl).
  - unfold Qeq. vm_compute. discriminate.
  - reflexivity.
Defined.

Lemma updateAll_does_not_depend_on_arrival_order_witness :
  outcome (updateAll StatusFirst (Resolved Sample.playing)
             (Rejected Sample.refused) Sample.fresh)
  = outcome (updateAll PlaylistFirst (Resolved Sample.playing)
               (Rejected Sample.refused) Sample.fresh)
  /\ outcome (updateAll StatusFirst (Rejected Sample.refused)
                (Rejected (Err "socket hang up")) Sample.fresh)
     = Throw Sample.refused
  /\ outcome (updateAll PlaylistFirst (Rejected Sample.refused)
                (Rejected (Err "socket hang up")) Sample.fresh)
     = Throw (Err "socket hang up").
Proof.
  split.
  - apply (proj1 (proj2 (proj2 (proj2
             (updateAll_does_not_depend_on_arrival_order
                (Resolved Sample.playing) (Rejected Sample.refused)
                Sample.fresh))))).
    reflexivity.
  - apply (proj2 (proj2 (proj2 (proj2
             (updateAll_does_not_depend_on_arrival_order
                (Rejected Sample.refused)
                (Rejected (Err "socket hang up")) Sample.fresh))))).
    + reflexivity.
    + reflexivity.
Defined.

Section ChangeEventsOff.

Lemma refresh_step_off (table : list (string * listener)) (cached : json)
    (change : json -> json -> event) (r : response) :
  refresh_step false table cached change r
  = (None, [], match r with
               | Resolved v => Normal v
               | Rejected e => Throw e
               end).
Proof. destruct r; reflexivity. Qed.

End ChangeEventsOff.

(** X17: with [changeEvents] off a refresh emits nothing and writes
    nothing, [updateAll] leaves the object as it is and still publishes
    [update] (and nothing else but an [error] for a throwing [update]
    listener) when both requests succeed, and emits nothing when one
    fails. *)
Theorem change_events_off_silences_refreshes
    (s : VLC) (r rs rp : response) (first : arrival) :
  _changeEvents s = false ->
  (emitted (log (updateStatus r s)) = [] /\ final (updateStatus r s) = s)
  /\ (emitted (log (updatePlaylist r s)) = []
      /\ final (updatePlaylist r s) = s)
  /\ final (updateAll first rs rp s) = s
  /\ (forall st pl, rs = Resolved st -> rp = Resolved pl ->
      events_named "update" (log (updateAll first rs rp s)) = [Update st pl]
      /\ forall ev, In ev (emitted (log (updateAll first rs rp s))) ->
           ev = Update st pl \/ exists e, ev = ErrorEvent e)
  /\ ((exists e, rs = Rejected e) \/ (exists e, rp = Rejected e) ->
      emitted (log (updateAll first rs rp s)) = []).
Proof.
  intros Hoff.
  assert (HA : forall r0, status_step s r0
                          = (None, [], match r0 with
                                       | Resolved v => Normal v
                                       | Rejected e => Throw e
                                       end)).
  { intros r0. unfold status_step. rewrite Hoff. apply refresh_step_off. }
  assert (HB : forall r0, playlist_step s r0
                          = (None, [], match r0 with
                                       | Resolved v => Normal v
                                       | Rejected e => Throw e
                                       end)).
  { intros r0. unfold playlist_step. rewrite Hoff. apply refresh_step_off. }
  rewrite updateStatus_emitted, updatePlaylist_emitted, final_updateStatus,
    final_updatePlaylist, final_updateAll.
  rewrite !HA, !HB. cbn [fst snd store emitted flat_map].
  repeat match goal with |- _ /\ _ => split end; try reflexivity.
  - intros st pl Hrs Hrp.
    assert (EA : status_step s rs = (None, [], Normal st))
      by (rewrite HA, Hrs; reflexivity).
    assert (EB : playlist_step s rp = (None, [], Normal pl))
      by (rewrite HB, Hrp; reflexivity).
    destruct (updateAll_after_issue first rs rp s) as (_ & _ & He).
    rewrite (events_named_ext _ _ _ He), He. clear He.
    unfold updateAll_resume, Promise_all, updateAll_body, unsettle, bind,
      settle, try_catch, emit, ret, throw.
    destruct first; repeat (run_refreshes; rewrite ?EA, ?EB);
      split_deliver; run_refreshes;
      (split; [reflexivity |]);
      unfold emitted; cbn;
      intros ev Hin;
      repeat (destruct Hin as [<- | Hin]; [eauto |]); contradiction.
  - intros Hrej.
    destruct (updateAll_after_issue first rs rp s) as (_ & _ & ->).
    pose proof (HA rs) as EA. pose proof (HB rp) as EB.
    unfold updateAll_resume, Promise_all, updateAll_body, unsettle, bind,
      settle, try_catch, emit, ret, throw.
    destruct first; repeat (run_refreshes; rewrite ?EA, ?EB);
      destruct Hrej as [[e Hr] | [e Hr]]; rewrite Hr in *;
      repeat (run_refreshes; rewrite ?EA, ?EB);
      try (destruct rp; repeat (run_refreshes; rewrite ?EA, ?EB));
      try (destruct rs; repeat (run_refreshes; rewrite ?EA, ?EB));
      reflexivity.
Qed.

Lemma change_events_off_silences_refreshes_witness :
  emitted (log (updateStatus (Resolved Sample.playing) Sample.silent)) = []
  /\ final (updateStatus (Resolved Sample.playing) Sample.silent)
     = Sample.silent.
Proof.
  apply (proj1 (change_events_off_silences_refreshes Sample.silent
                  (Resolved Sample.playing) (Resolved Sample.playing)
                  (Resolved Sample.playlist) StatusFirst eq_refl)).
Defined.
